(** * kde_python_file_search: a verification development

    Shallow embedding of [kde_python_file_search.py]: the mount enumerator
    [find_mounts_external], the traversal worker [SearchWorker.run], the
    search life cycle of [MainWindow] and the command line built by
    [MainWindow.open_terminal_at].

    Conventions of the embedding.
    - A Python [str] is a [string]; a character is a code point below 256
      (the Latin-1 range), on which [str.lower], [str.isspace] and the
      comparison of strings are the ones defined below.
    - The file system is a snapshot taken when the walk starts.
    - The signals of a worker are the list of what it emitted, in order. *)

From Stdlib Require Import Ascii.
From Stdlib Require String.
From stdpp Require Import base list strings gmap sorting pretty.

Set Warnings "-register-all".

(** ** Python string operations *)

Module Str.

Definition code (c : ascii) : nat := nat_of_ascii c.

(** [str.isspace] of one character, for code points below 256. *)
Definition isspace (c : ascii) : bool :=
  let n := code c in
  ((9 <=? n) && (n <=? 13)) || ((28 <=? n) && (n <=? 32))
  || (n =? 133) || (n =? 160).

(** [str.lower] of one character, for code points below 256: the letters
    A-Z and the accented capitals 192-222 (the sign 215 apart). *)
Definition lower_char (c : ascii) : ascii :=
  let n := code c in
  if ((65 <=? n) && (n <=? 90))
     || ((192 <=? n) && (n <=? 222) && negb (n =? 215))
  then ascii_of_nat (n + 32) else c.

(** [str.lower] on strings of code points below 256, which it lowers one
    character at a time. Beyond these code points [str.lower] is no such
    map (a capital sigma is lowered according to its place in the word):
    the statements on matching take the test as [run] makes it, the
    keyword in lower case being a substring of the name in lower case. *)
Fixpoint lower (s : string) : string :=
  match s with
  | EmptyString => EmptyString
  | String c r => String (lower_char c) (lower r)
  end.

(** [s.startswith(p)] *)
Fixpoint startswith (s p : string) {struct p} : bool :=
  match p, s with
  | EmptyString, _ => true
  | String _ _, EmptyString => false
  | String a p', String b s' => if decide (a = b) then startswith s' p' else false
  end.

(** [s.endswith(p)] *)
Definition endswith (s p : string) : bool :=
  startswith (String.rev s) (String.rev p).

(** [sub in s] *)
Fixpoint contains (sub s : string) : bool :=
  startswith s sub ||
  match s with
  | EmptyString => false
  | String _ r => contains sub r
  end.

(** [s.lstrip()] and [s.strip()] *)
Fixpoint lstrip (s : string) : string :=
  match s with
  | EmptyString => EmptyString
  | String c r => if isspace c then lstrip r else s
  end.

Definition strip (s : string) : string :=
  String.rev (lstrip (String.rev (lstrip s))).

(** [s.split()]: the maximal runs of characters that are not white space.
    [cur] is the run being read, in reverse. *)
Fixpoint split_go (cur : option string) (s : string) : list string :=
  match s with
  | EmptyString => option_list (String.rev <$> cur)
  | String c r =>
      if isspace c
      then option_list (String.rev <$> cur) ++ split_go None r
      else split_go (Some (String c (default EmptyString cur))) r
  end.

Definition split (s : string) : list string := split_go None s.

End Str.

(** ** The mount enumerator *)

(** The exceptions that reading a file raises. *)
Inductive exn :=
  | FileNotFoundError
  | PermissionError
  | OtherOSError
  | UnicodeDecodeError.

(** What reading [/proc/mounts] can do: [open] raises; every line is read;
    or some lines are read and the next read raises. *)
Inductive proc_mounts :=
  | OpenFails (e : exn)
  | Lines (ls : list string)
  | LinesThenError (ls : list string) (e : exn).

Definition is_external_device (dev : string) : bool :=
  Str.startswith dev "/dev/sd" || Str.startswith dev "/dev/mmcblk"
  || Str.startswith dev "/dev/nvme".

(** The body of [for line in f]. *)
Definition scan_mount_line (mounts : list string) (line : string) : list string :=
  match Str.split line with
  | dev :: mnt :: _ =>
      if is_external_device dev then mounts ++ [mnt] else mounts
  | _ => mounts
  end.

(** [sorted(set(l))] *)
Definition sorted_set (l : list string) : list string :=
  merge_sort String.le (elements (list_to_set l : gset string)).

(** The [try] block, which covers the [open] and the loop: the value of
    [mounts] when the block is left, and the exception that leaves it. *)
Definition read_mounts (f : proc_mounts) : list string * option exn :=
  match f with
  | OpenFails e => ([], Some e)
  | Lines ls => (foldl scan_mount_line [] ls, None)
  | LinesThenError ls e => (foldl scan_mount_line [] ls, Some e)
  end.

(** [except Exception: pass] drops the exception, whatever it is, and the
    function goes on to its [return]. *)
Definition find_mounts_external (f : proc_mounts) : list string :=
  let '(mounts, _) := read_mounts f in
  sorted_set mounts.

(** ** Paths: [posixpath] *)

Module PosixPath.

(** [basename(p)] is [p[p.rfind('/') + 1:]]; [cur] is what follows the
    last separator read so far. *)
Fixpoint basename_from (cur p : string) : string :=
  match p with
  | EmptyString => cur
  | String c r =>
      if decide (c = "/"%char) then basename_from r r else basename_from cur r
  end.

Definition basename (p : string) : string := basename_from p p.

(** [join(a, b)] *)
Definition join (a b : string) : string :=
  if Str.startswith b "/" then b
  else if bool_decide (a = "") || Str.endswith a "/" then a +:+ b
  else a +:+ "/" +:+ b.

(** [p[:p.rfind('/') + 1]]: [p] up to its last separator, included. *)
Fixpoint head_of (p : string) : string :=
  match p with
  | EmptyString => EmptyString
  | String c r =>
      if Str.contains "/" r then String c (head_of r)
      else if decide (c = "/"%char) then "/" else EmptyString
  end.

(** [head == sep * len(head)] *)
Fixpoint all_sep (s : string) : bool :=
  match s with
  | EmptyString => true
  | String c r => bool_decide (c = "/"%char) && all_sep r
  end.

Fixpoint lstrip_sep (s : string) : string :=
  match s with
  | EmptyString => EmptyString
  | String c r => if decide (c = "/"%char) then lstrip_sep r else s
  end.

(** [s.rstrip('/')] *)
Definition rstrip_sep (s : string) : string :=
  String.rev (lstrip_sep (String.rev s)).

(** [dirname(p)] *)
Definition dirname (p : string) : string :=
  let head := head_of p in
  if negb (bool_decide (head = "")) && negb (all_sep head)
  then rstrip_sep head else head.

End PosixPath.

(** ** The file system, as [os.walk] sees it *)

(** An entry of a directory listing ([os.scandir]).
    - [File]: [is_dir()] is false (a regular file, a link to a file, a
      broken link, a device ...).
    - [Dir]: a directory that can be listed, with its listing.
    - [DirLink]: a symbolic link to a directory; [is_dir()] is true, and
      [os.walk] does not descend ([followlinks] is false).
    - [DirDenied]: a directory whose [scandir] raises [OSError]; [onerror]
      swallows the error and nothing is yielded for it. *)
Inductive entry :=
  | File (name : string)
  | Dir (name : string) (content : list entry)
  | DirLink (name : string)
  | DirDenied (name : string).

Definition entry_name (e : entry) : string :=
  match e with
  | File n | Dir n _ | DirLink n | DirDenied n => n
  end.

Definition entry_is_dir (e : entry) : bool :=
  match e with
  | File _ => false
  | _ => true
  end.

(** [scandir(root)] for a root of the search: [None] when it raises. *)
Definition filesystem := string → option (list entry).

(** What [os.walk] yields: [(dirpath, dirnames, filenames)]. *)
Definition walk_item : Type := string * list string * list string.

Definition dirnames_of (es : list entry) : list string :=
  entry_name <$> filter (λ e, entry_is_dir e = true) es.

Definition filenames_of (es : list entry) : list string :=
  entry_name <$> filter (λ e, entry_is_dir e = false) es.

(** The recursive call [walk(join(top, dirname))] made for the entry [e] of
    [top], top-down. *)
Fixpoint walk_entry (top : string) (e : entry) : list walk_item :=
  match e with
  | Dir n content =>
      let new_path := PosixPath.join top n in
      (new_path, dirnames_of content, filenames_of content)
        :: (content ≫= walk_entry new_path)
  | File _ | DirLink _ | DirDenied _ => []
  end.

(** [os.walk(root, onerror=lambda e: None)], run to its end: what the
    iterative walk of Python 3.12 and later yields, and what the recursive
    walk of the earlier versions yields when it stays within the recursion
    limit ([os_walk_py] below is the walk that can raise). *)
Definition os_walk (fs : filesystem) (root : string) : list walk_item :=
  match fs root with
  | None => []
  | Some es =>
      (root, dirnames_of es, filenames_of es) :: (es ≫= walk_entry root)
  end.

(** ** The traversal worker *)

Inductive signal :=
  | found (path : string)
  | progress (n : nat)
  | finished.

#[global] Instance signal_eq_dec : EqDecision signal.
Proof. solve_decision. Defined.

(** What a run does that others can see: the signals it emits and, as a
    ghost record, the values [is_set()] returned to it. *)
Inductive event :=
  | Emit (s : signal)
  | IsSet (b : bool).

#[global] Instance event_eq_dec : EqDecision event.
Proof. solve_decision. Defined.

(** The state of one call of [run]: the local [total], the number of calls
    of [is_set()] made so far, and the events so far, oldest first. *)
Record frame := Frame {
  total : nat;
  polls : nat;
  history : list event
}.

(** The stop event is written by the other thread: all the worker knows is
    the value that its [n]-th call of [is_set()] returns. *)
Definition stop_event := nat → bool.

Definition never_set : stop_event := λ _, false.

(** A statement either falls through to the next one, or is a [return]. *)
Inductive outcome (A : Type) :=
  | Next (a : A) (s : frame)
  | Returned (s : frame).
Arguments Next {A} a s.
Arguments Returned {A} s.

Definition Run (A : Type) : Type := frame → outcome A.

#[global] Instance run_ret : MRet Run := λ A a s, Next a s.

#[global] Instance run_bind : MBind Run := λ A B k m s,
  match m s with
  | Next a s' => k a s'
  | Returned s' => Returned s'
  end.

Definition return_ : Run unit := λ s, Returned s.

Definition when (b : bool) (m : Run unit) : Run unit :=
  if b then m else mret ().

Fixpoint for_each {X} (xs : list X) (body : X → Run unit) : Run unit :=
  match xs with
  | [] => mret ()
  | x :: r => body x ;; for_each r body
  end.

Definition emit (sig : signal) : Run unit :=
  λ s, Next () (Frame (total s) (polls s) (history s ++ [Emit sig])).

Definition is_set (stop : stop_event) : Run bool :=
  λ s, let b := stop (polls s) in
       Next b (Frame (total s) (S (polls s)) (history s ++ [IsSet b])).

Definition incr_total : Run unit :=
  λ s, Next () (Frame (S (total s)) (polls s) (history s)).

Definition get_total : Run nat := λ s, Next (total s) s.

Record SearchWorker := {
  roots : list string;
  keyword : string;
  _stop_event : stop_event
}.

(** [SearchWorker.__init__] *)
Definition SearchWorker_init (roots : list string) (keyword : string)
    (stop : stop_event) : SearchWorker :=
  {| roots := roots; keyword := Str.lower keyword; _stop_event := stop |}.

Section run.
Context (fs : filesystem) (self : SearchWorker).

(** The body of the loop over [filenames]. *)
Definition run_file (dirpath fname : string) : Run unit :=
  set ← is_set (_stop_event self) ;
  when set (emit finished ;; return_) ;;
  when (Str.contains (keyword self) (Str.lower fname))
    (let full := PosixPath.join dirpath fname in
     emit (found full)).

(** The body of the loop over [os.walk(root)]. *)
Definition run_dir (item : walk_item) : Run unit :=
  let '(dirpath, dirnames, filenames) := item in
  set ← is_set (_stop_event self) ;
  when set (emit finished ;; return_) ;;
  let name := Str.lower (PosixPath.basename dirpath) in
  when (Str.contains (keyword self) name) (emit (found dirpath)) ;;
  for_each filenames (run_file dirpath) ;;
  incr_total ;;
  total ← get_total;
  when (total mod 500 =? 0) (emit (progress total)).

(** [SearchWorker.run], every walk running to its end ([run_py] below is
    the run that the exception of a walk can leave). *)
Definition run : Run unit :=
  for_each (roots self) (λ root, for_each (os_walk fs root) run_dir) ;;
  emit finished.

(** The call [run()] of the thread, from [total = 0]. *)
Definition run_thread : frame :=
  match run (Frame 0 0 []) with
  | Next _ s | Returned s => s
  end.

Definition run_history : list event := history run_thread.

End run.

(** The signals of a history, and the paths of its [found] signals. *)
Definition signals (h : list event) : list signal :=
  omap (λ e, match e with Emit s => Some s | IsSet _ => None end) h.

Definition found_paths (h : list event) : list string :=
  omap (λ e, match e with Emit (found p) => Some p | _ => None end) h.


(** ** The worker on an interpreter whose [os.walk] recurses

    Up to Python 3.11 [os.walk] is a recursive generator: the walk of a
    directory [n] levels below the root runs on top of the frames of the
    [n] walks above it. After a directory is yielded, the walk calls
    [join(top, dirname)] for each name in [dirnames], then [islink], then
    resumes the walk of the sub-directory. Of these [join] needs the most
    frames, so that past the recursion limit it is a call of [join], made
    right after a directory was yielded, that raises [RecursionError].
    This is no [OSError]: neither [os.walk] nor [onerror] catches it, and
    it leaves every walk above. From Python 3.12 on, the walk is iterative
    and runs to its end, as [os_walk] does. *)

(** [None] stands for the iterative walk, and [Some b] for a recursive
    walk that can descend [b] levels below a root: a directory [b] levels
    below the root is still yielded, and [join] raises for the first name
    in its [dirnames]. *)
Definition recursion_budget := option nat.

(** Walks made one after the other, up to the first that raises: what they
    yield, and whether one raised. *)
Fixpoint until_abort (ws : list (list walk_item * bool))
    : list walk_item * bool :=
  match ws with
  | [] => ([], false)
  | (items, true) :: _ => (items, true)
  | (items, false) :: r =>
      let '(items', raised) := until_abort r in (items ++ items', raised)
  end.

(** The walk from the directory [top], whose listing is [es], with [b]
    levels left: the directory is yielded; with no level left, the first
    name in [dirnames] (a directory, a link to one, or a directory that
    cannot be listed) makes the walk raise; otherwise the directories among
    the entries are walked in turn with one level less, up to the first
    walk that raises. *)
Fixpoint walk_within (b : nat) (top : string) (es : list entry)
    : list walk_item * bool :=
  let item := (top, dirnames_of es, filenames_of es) in
  match b with
  | 0 => ([item], if dirnames_of es is [] then false else true)
  | S b' =>
      let below :=
        until_abort
          ((λ e, match e with
                 | Dir n content =>
                     walk_within b' (PosixPath.join top n) content
                 | File _ | DirLink _ | DirDenied _ => ([], false)
                 end) <$> es) in
      (item :: below.1, below.2)
  end.

(** [os.walk(root, onerror=lambda e: None)] on the interpreter [py]: what
    it yields and whether it then raises [RecursionError]. *)
Definition os_walk_py (py : recursion_budget) (fs : filesystem)
    (root : string) : list walk_item * bool :=
  match py with
  | None => (os_walk fs root, false)
  | Some b =>
      match fs root with
      | None => ([], false)
      | Some es => walk_within b root es
      end
  end.

(** No walk of a root raises. *)
Definition walks_complete (py : recursion_budget) (fs : filesystem)
    (rs : list string) : Prop :=
  Forall (λ root, (os_walk_py py fs root).2 = false) rs.

(** The levels of directories that an entry adds below the directory that
    lists it, and the deepest nesting of a listing. *)
Fixpoint entry_levels (e : entry) : nat :=
  match e with
  | File _ => 0
  | Dir _ content => S (max_list (entry_levels <$> content))
  | DirLink _ | DirDenied _ => 1
  end.

Definition nesting (es : list entry) : nat := max_list (entry_levels <$> es).

(** How the loop over the roots ends: it falls through, a [return] is
    executed, or an exception leaves it. *)
Inductive loop_end :=
  | Fell (s : frame)
  | Ret (s : frame)
  | Exc (s : frame).

(** The loop [for root in self.roots] of [run]. *)
Fixpoint walk_roots (py : recursion_budget) (fs : filesystem)
    (self : SearchWorker) (rs : list string) (s : frame) : loop_end :=
  match rs with
  | [] => Fell s
  | root :: rest =>
      let '(items, raised) := os_walk_py py fs root in
      match for_each items (run_dir self) s with
      | Returned s' => Ret s'
      | Next _ s' => if raised then Exc s' else walk_roots py fs self rest s'
      end
  end.

(** [SearchWorker.run] on the interpreter [py], from [total = 0]: the
    frame at its end, and whether an exception left it. [run] has no
    handler: an exception that leaves the walk leaves [run]. *)
Definition run_py (py : recursion_budget) (fs : filesystem)
    (self : SearchWorker) : frame * bool :=
  match walk_roots py fs self (roots self) (Frame 0 0 []) with
  | Fell s => (Frame (total s) (polls s) (history s ++ [Emit finished]), false)
  | Ret s => (s, false)
  | Exc s => (s, true)
  end.

Definition run_py_history (py : recursion_budget) (fs : filesystem)
    (self : SearchWorker) : list event :=
  history (run_py py fs self).1.

(** What the walks of the roots yield up to the first that raises. *)
Definition py_items (py : recursion_budget) (fs : filesystem)
    (rs : list string) : list walk_item * bool :=
  until_abort (os_walk_py py fs <$> rs).

(** ** The main window: the life cycle of a search *)

(** A [SearchWorker] thread created by the window. [is_running] holds
    from [start()] until the window has handled the [finished] signal of
    the thread. [QThread.isRunning()] turns false earlier, when [run]
    returns: between the two, [is_running] still holds here. *)
Record thread := Thread {
  thread_roots : list string;
  thread_keyword : string;
  is_running : bool
}.

(** The part of [MainWindow] that the search life cycle reads or writes.
    [threads] holds every worker created so far, oldest first; [self.worker]
    is the last one. *)
Record MainWindow := Window {
  search_input : string;
  search_button_enabled : bool;
  stop_button_enabled : bool;
  include_external_cb : bool;
  custom_roots : list string;
  loader_visible : bool;
  result_list : list string;
  status_label : string;
  stop_event_set : bool;
  threads : list thread
}.

Definition e_acute : string := String "233"%char "".
Definition e_circ : string := String "234"%char "".

Definition status_enter_keyword : string := "Entrer un mot-cl" +:+ e_acute.
Definition status_searching : string := "Recherche en cours...".
Definition status_stopping : string := "Arr" +:+ e_circ +:+ "t en cours...".

(** [MainWindow.__init__] and [_build_ui] *)
Definition MainWindow_init : MainWindow :=
  {| search_input := ""; search_button_enabled := true;
     stop_button_enabled := false; include_external_cb := false;
     custom_roots := []; loader_visible := false; result_list := [];
     status_label := "Pr" +:+ e_circ +:+ "t"; stop_event_set := false;
     threads := [] |}.

Definition set_status (w : MainWindow) (msg : string) : MainWindow :=
  Window (search_input w) (search_button_enabled w) (stop_button_enabled w)
    (include_external_cb w) (custom_roots w) (loader_visible w)
    (result_list w) msg (stop_event_set w) (threads w).

(** The [roots] list that [start_search] builds. *)
Definition search_roots (w : MainWindow) (mtab : proc_mounts) : list string :=
  let roots := if custom_roots w is [] then ["/"] else custom_roots w in
  if include_external_cb w
  then foldl (λ roots m, if bool_decide (m ∈ roots) then roots else roots ++ [m])
         roots (find_mounts_external mtab)
  else roots.

(** [MainWindow.start_search]; [mtab] is what [/proc/mounts] gives when it
    is read. *)
Definition start_search (mtab : proc_mounts) (w : MainWindow) : MainWindow :=
  let keyword := Str.strip (search_input w) in
  if bool_decide (keyword = "") then set_status w status_enter_keyword
  else
    let roots := search_roots w mtab in
    Window (search_input w) false true (include_external_cb w)
      (custom_roots w) true [] status_searching false
      (threads w ++ [Thread roots keyword true]).

(** [MainWindow.stop_search]; the test [self.worker.isRunning()] is read
    on [is_running] (see [thread]). *)
Definition stop_search (w : MainWindow) : MainWindow :=
  match last (threads w) with
  | Some t =>
      if is_running t
      then Window (search_input w) (search_button_enabled w)
             (stop_button_enabled w) (include_external_cb w) (custom_roots w)
             (loader_visible w) (result_list w) status_stopping true
             (threads w)
      else w
  | None => w
  end.

(** [MainWindow.on_found] *)
Definition on_found (path : string) (w : MainWindow) : MainWindow :=
  Window (search_input w) (search_button_enabled w) (stop_button_enabled w)
    (include_external_cb w) (custom_roots w) (loader_visible w)
    (result_list w ++ [path]) (status_label w) (stop_event_set w) (threads w).

(** [MainWindow.on_progress] *)
Definition on_progress (n : nat) (w : MainWindow) : MainWindow :=
  set_status w ("Parcouru ~" +:+ pretty n +:+ " dossiers...").

(** [MainWindow.on_finished] *)
Definition on_finished (w : MainWindow) : MainWindow :=
  Window (search_input w) true false (include_external_cb w) (custom_roots w)
    false (result_list w)
    ("Fini. " +:+ pretty (length (result_list w)) +:+ " r" +:+ e_acute
       +:+ "sultats")
    (stop_event_set w) (threads w).

(** [MainWindow.add_custom_folder], [d] being what the dialog returned. *)
Definition add_custom_folder (d : string) (w : MainWindow) : MainWindow :=
  if bool_decide (d = "") then w
  else Window (search_input w) (search_button_enabled w)
         (stop_button_enabled w) (include_external_cb w) (custom_roots w ++ [d])
         (loader_visible w) (result_list w) (status_label w)
         (stop_event_set w) (threads w).

(** [MainWindow.clear_custom_roots] *)
Definition clear_custom_roots (w : MainWindow) : MainWindow :=
  Window (search_input w) (search_button_enabled w) (stop_button_enabled w)
    (include_external_cb w) [] (loader_visible w) (result_list w)
    (status_label w) (stop_event_set w) (threads w).

(** What the event loop delivers to the window. The first seven come from
    the user; a disabled button emits no [clicked]. The last three come
    from the worker thread of index [i]. *)
Inductive ui_event :=
  | text_edited (s : string)
  | search_clicked
  | return_pressed
  | stop_clicked
  | external_toggled (b : bool)
  | folder_chosen (d : string)
  | roots_cleared
  | worker_found (i : nat) (path : string)
  | worker_progress (i : nat) (n : nat)
  | worker_finished (i : nat).

Definition thread_running (w : MainWindow) (i : nat) : bool :=
  match threads w !! i with
  | Some t => is_running t
  | None => false
  end.

(** The thread [i] leaves [run]. *)
Definition thread_exit (i : nat) (w : MainWindow) : MainWindow :=
  Window (search_input w) (search_button_enabled w) (stop_button_enabled w)
    (include_external_cb w) (custom_roots w) (loader_visible w)
    (result_list w) (status_label w) (stop_event_set w)
    (alter (λ t, Thread (thread_roots t) (thread_keyword t) false) i (threads w)).

Definition set_text (s : string) (w : MainWindow) : MainWindow :=
  Window s (search_button_enabled w) (stop_button_enabled w)
    (include_external_cb w) (custom_roots w) (loader_visible w)
    (result_list w) (status_label w) (stop_event_set w) (threads w).

Definition set_external (b : bool) (w : MainWindow) : MainWindow :=
  Window (search_input w) (search_button_enabled w) (stop_button_enabled w)
    b (custom_roots w) (loader_visible w)
    (result_list w) (status_label w) (stop_event_set w) (threads w).

(** The slot connected to each signal ([_build_ui], [start_search]). The
    signal of a worker is handled while [is_running] holds of its thread,
    and the handling of [finished] ends this. *)
Definition handle (mtab : proc_mounts) (w : MainWindow) (e : ui_event) : MainWindow :=
  match e with
  | text_edited s => set_text s w
  | search_clicked => if search_button_enabled w then start_search mtab w else w
  | return_pressed => start_search mtab w
  | stop_clicked => if stop_button_enabled w then stop_search w else w
  | external_toggled b => set_external b w
  | folder_chosen d => add_custom_folder d w
  | roots_cleared => clear_custom_roots w
  | worker_found i path => if thread_running w i then on_found path w else w
  | worker_progress i n => if thread_running w i then on_progress n w else w
  | worker_finished i =>
      if thread_running w i then thread_exit i (on_finished w) else w
  end.

Definition handle_all (mtab : proc_mounts) (es : list ui_event) : MainWindow :=
  foldl (handle mtab) MainWindow_init es.

(** The workers that are running. *)
Definition count_running (ts : list thread) : nat :=
  length (filter (λ t, is_running t = true) ts).

Definition active_workers (w : MainWindow) : nat :=
  count_running (threads w).

(** ** The terminal launcher *)

Definition candidates : list string :=
  ["konsole"; "x-terminal-emulator"; "xfce4-terminal"; "gnome-terminal";
   "urxvt"; "xterm"].

Definition dquote : string := String "034"%char "".

(** What [open_terminal_at] does: a [subprocess.Popen] of an argument list,
    or a warning box. *)
Inductive launch :=
  | Popen (argv : list string)
  | NoTerminalWarning.

(** [MainWindow.open_terminal_at]; [which c] tells whether [shutil_which(c)]
    finds the program. *)
Definition open_terminal_at (which : string → bool) (folder : string) : launch :=
  match filter (λ c, which c = true) candidates with
  | [] => NoTerminalWarning
  | cmd :: _ =>
      if bool_decide (cmd = "konsole") then Popen [cmd; "--workdir"; folder]
      else if bool_decide (cmd = "x-terminal-emulator")
              || bool_decide (cmd = "gnome-terminal")
      then Popen [cmd; "--"; "bash"; "-c";
                  "cd " +:+ dquote +:+ folder +:+ dquote +:+ "; exec bash"]
      else Popen [cmd; "-e";
                  "bash -lc " +:+ dquote +:+ "cd " +:+ dquote +:+ folder
                    +:+ dquote +:+ "; exec bash" +:+ dquote]
  end.

(** ** Notions used by the statements *)

(** [s] begins with [p]. *)
Definition begins_with (s p : string) : Prop := ∃ r, s = p +:+ r.

(** The fixed prefixes: SCSI/SATA disks, MMC cards, NVMe devices. *)
Definition external_prefixes : list string :=
  ["/dev/sd"; "/dev/mmcblk"; "/dev/nvme"].

Definition external_device (dev : string) : Prop :=
  ∃ p, p ∈ external_prefixes ∧ begins_with dev p.

(** The line has at least two fields, the first two being [dev], [mnt]. *)
Definition mount_record (line dev mnt : string) : Prop :=
  ∃ rest, Str.split line = dev :: mnt :: rest.

Definition newline : string := String "010"%char "".

(** The mount table of three lines used as a test by the specification. *)
Definition synthetic_table : list string :=
  ["/dev/sda1 /media/usb1" +:+ newline;
   "/dev/sdb2 /mnt/data" +:+ newline;
   "/dev/loop0 /snap/x" +:+ newline].

(** What one line adds to [mounts]. *)
Definition line_mounts (line : string) : list string :=
  match Str.split line with
  | dev :: mnt :: _ => if is_external_device dev then [mnt] else []
  | _ => []
  end.

(** *** The run as a sequence of steps

    [run] is three nested loops; unrolled, it is one sequence of steps of
    three kinds: a call of [is_set()] with its [return] (the head of the body
    of each loop over directories and over files), the emission of a match,
    and the end of the body for one directory ([total += 1] and the test of
    [total % 500]). *)
Inductive step :=
  | Poll
  | Match (path : string)
  | Tick.

#[global] Instance step_eq_dec : EqDecision step.
Proof. solve_decision. Defined.

Definition file_steps (kw dirpath fname : string) : list step :=
  Poll :: (if Str.contains kw (Str.lower fname)
           then [Match (PosixPath.join dirpath fname)] else []).

Definition dir_steps (kw : string) (item : walk_item) : list step :=
  let '(dirpath, _, filenames) := item in
  Poll :: (if Str.contains kw (Str.lower (PosixPath.basename dirpath))
           then [Match dirpath] else [])
    ++ (filenames ≫= file_steps kw dirpath) ++ [Tick].

Definition run_steps (fs : filesystem) (self : SearchWorker) : list step :=
  (roots self ≫= os_walk fs) ≫= dir_steps (keyword self).

Definition exec_step (stop : stop_event) (st : step) : Run unit :=
  match st with
  | Poll => set ← is_set stop; when set (emit finished ;; return_)
  | Match p => emit (found p)
  | Tick => incr_total ;; total ← get_total;
            when (total mod 500 =? 0) (emit (progress total))
  end.

Definition exec_steps (stop : stop_event) (l : list step) : Run unit :=
  for_each l (exec_step stop).

(** What the test of [total % 500] emits when [total] is [n]. *)
Definition progress_after (n : nat) : list event :=
  if n mod 500 =? 0 then [Emit (progress n)] else [].

(** What a sequence of steps writes to the history when no call of
    [is_set()] returns true, [t] being the value of [total] before it. *)
Fixpoint quiet_history (t : nat) (l : list step) : list event :=
  match l with
  | [] => []
  | Poll :: r => IsSet false :: quiet_history t r
  | Match p :: r => Emit (found p) :: quiet_history t r
  | Tick :: r =>
      progress_after (S t) ++ quiet_history (S t) r
  end.

Definition ticks (l : list step) : nat :=
  length (filter (λ st, st = Tick) l).

Definition poll_count (l : list step) : nat :=
  length (filter (λ st, st = Poll) l).

(** The directories that the walks of the roots visit, in order. *)
Definition visited_items (fs : filesystem) (roots : list string) : list walk_item :=
  roots ≫= os_walk fs.

(** What the worker does for one file and for one directory when the stop
    event is not set: a call of [is_set()], then the match if there is
    one. *)
Definition file_events (kw dirpath fname : string) : list event :=
  IsSet false :: (if Str.contains kw (Str.lower fname)
                  then [Emit (found (PosixPath.join dirpath fname))] else []).

Definition dir_events (kw : string) (item : walk_item) : list event :=
  let '(dirpath, _, filenames) := item in
  IsSet false :: (if Str.contains kw (Str.lower (PosixPath.basename dirpath))
                  then [Emit (found dirpath)] else [])
    ++ (filenames ≫= file_events kw dirpath).

Definition count_finished (h : list event) : nat :=
  length (filter (λ sg, sg = finished) (signals h)).

(** *** Matching, as the specification words it *)

Definition same_ignoring_case (a b : string) : Prop :=
  Str.lower a = Str.lower b.

(** [name] has a substring that is [kw] up to the case of the letters. *)
Definition contains_ignoring_case (name kw : string) : Prop :=
  ∃ pre mid suf, name = pre +:+ mid +:+ suf ∧ same_ignoring_case mid kw.

(** *** The tree that a walk sees *)

(** From the directory [top], whose listing is [es0], the walk comes to the
    directory [d], whose listing is [es], through entries [Dir] only. *)
Inductive descends : string → list entry → string → list entry → Prop :=
  | descends_here top es0 : descends top es0 top es0
  | descends_into top es0 n content d es :
      Dir n content ∈ es0 →
      descends (PosixPath.join top n) content d es →
      descends top es0 d es.

Section tree.
Context (fs : filesystem) (rs : list string).

(** The walk of some root visits the directory [d], whose listing is
    [es]. *)
Definition visited (d : string) (es : list entry) : Prop :=
  ∃ r es0, r ∈ rs ∧ fs r = Some es0 ∧ descends r es0 d es.

(** [p] is the path, and [name] the name that is matched, of what the walk
    hands to the worker: a directory visited, or an entry of one that is
    not a directory. *)
Inductive walked : string → string → Prop :=
  | walked_dir d es : visited d es → walked d (PosixPath.basename d)
  | walked_file d es f :
      visited d es → File f ∈ es → walked (PosixPath.join d f) f.

(** [p] is the path, and [name] the name, of a directory or a file of the
    trees under the roots: a directory visited, or any entry of one,
    whatever its kind. *)
Inductive listed : string → string → Prop :=
  | listed_dir d es : visited d es → listed d (PosixPath.basename d)
  | listed_entry d es e :
      visited d es → e ∈ es →
      listed (PosixPath.join d (entry_name e)) (entry_name e).
End tree.

(** The same, as a list in the order of the walk: path and name. *)
Definition item_entries (item : walk_item) : list (string * string) :=
  let '(dirpath, _, filenames) := item in
  (dirpath, PosixPath.basename dirpath)
    :: ((λ fname, (PosixPath.join dirpath fname, fname)) <$> filenames).

Definition walked_entries (fs : filesystem) (rs : list string)
    : list (string * string) :=
  visited_items fs rs ≫= item_entries.

(** The test that [run] applies to a name, [kw] being the keyword given to
    the worker. *)
Definition name_matches (kw : string) (entry : string * string) : Prop :=
  Str.contains (Str.lower kw) (Str.lower entry.2) = true.

#[global] Instance name_matches_dec kw entry : Decision (name_matches kw entry).
Proof. unfold name_matches. apply _. Defined.

(** What [os.walk] yields from the directory [top], whose listing is [es]. *)
Definition walk_from (top : string) (es : list entry) : list walk_item :=
  (top, dirnames_of es, filenames_of es) :: (es ≫= walk_entry top).

(** The paths of the matches in a sequence of steps. *)
Definition step_paths (l : list step) : list string :=
  omap (λ st, if st is Match p then Some p else None) l.

(** *** The first claim, as it is stated *)

(** The run that is not cancelled emits no path twice, and the paths that
    it emits are those of the directories and files under the roots whose
    name contains the keyword. *)
Definition emits_each_match_once (fs : filesystem) (rs : list string)
    (kw : string) : Prop :=
  let ps := found_paths (run_history fs (SearchWorker_init rs kw never_set)) in
  NoDup ps
  ∧ ∀ p, p ∈ ps ↔ ∃ name, listed fs rs p name ∧ contains_ignoring_case name kw.

(** A home directory: a file, a link to a directory, a directory that
    cannot be listed, and a directory with a file. *)
Definition home_fs : filesystem := λ r,
  if bool_decide (r = "/home/u")
  then Some [File "foo.txt"; DirLink "foolink"; DirDenied "food";
             Dir "docs" [File "Foo.pdf"; File "notes"]]
  else None.

(** The tree of the example of the specification. *)
Definition testroot_fs : filesystem := λ r,
  if bool_decide (r = "/tmp/testroot")
  then Some [Dir "Foo" [File "bar.txt"]; Dir "baz" [File "FooBar.log"]]
  else None.

(** *** What a blank keyword is *)

(** Every character of [s] is white space ([s] may be empty). *)
Fixpoint blank (s : string) : Prop :=
  match s with
  | EmptyString => True
  | String c r => Str.isspace c = true ∧ blank r
  end.

(** *** The shell

    Modelled from the POSIX shell, which is no part of this repository:
    how [sh] cuts the first command of a command line into words. White
    space separates words outside double quotes, a double quote opens or
    closes a quoted part, and a semicolon outside quotes ends the command.
    Expansions, backslashes and single quotes are left out: the statements
    below use it on command lines that have none. The result is [None]
    when a quote is left open. *)

Module Sh.

Inductive mode := Unquoted | Quoted.

Definition is_blank (c : ascii) : bool :=
  bool_decide (c = " "%char) || bool_decide (c = "009"%char)
  || bool_decide (c = "010"%char).

Definition close_word (cur : option string) : list string :=
  option_list (String.rev <$> cur).

Definition push (c : ascii) (cur : option string) : option string :=
  Some (String c (default EmptyString cur)).

Fixpoint words_go (m : mode) (cur : option string) (s : string)
    : option (list string) :=
  match s with
  | EmptyString =>
      match m with
      | Unquoted => Some (close_word cur)
      | Quoted => None
      end
  | String c r =>
      match m with
      | Unquoted =>
          if bool_decide (c = "034"%char)
          then words_go Quoted (Some (default EmptyString cur)) r
          else if bool_decide (c = ";"%char) then Some (close_word cur)
          else if is_blank c
          then (close_word cur ++.) <$> words_go Unquoted None r
          else words_go Unquoted (push c cur) r
      | Quoted =>
          if bool_decide (c = "034"%char) then words_go Unquoted cur r
          else words_go Quoted (push c cur) r
      end
  end.

(** The words of the first command of [line]. *)
Definition first_command (line : string) : option (list string) :=
  words_go Unquoted None line.

(** The directory that a script whose first command is [cd dir] moves
    to. *)
Definition cd_target (script : string) : option string :=
  match first_command script with
  | Some [cd; dir] => if bool_decide (cd = "cd") then Some dir else None
  | _ => None
  end.

End Sh.

(** The only terminal installed is [prog]. *)
Definition only (prog : string) : string → bool :=
  λ c, bool_decide (c = prog).

(** The directory in which the shell that a launch spawns is asked to
    start: the argument of [--workdir]; or the target of the [cd] of the
    script given to [bash -c]; or, when the terminal is given one command
    line after [-e], which it cuts into words as a shell does, the target
    of the [cd] of the script that this line gives to [bash -lc]. *)
Definition launched_workdir (l : launch) : option string :=
  match l with
  | Popen [_; flag; arg] =>
      if bool_decide (flag = "--workdir") then Some arg
      else match Sh.first_command arg with
           | Some (_ :: _ :: script :: _) => Sh.cd_target script
           | _ => None
           end
  | Popen [_; _; _; _; script] => Sh.cd_target script
  | _ => None
  end.

(** *** The invariant of the search button *)

(** At most one worker runs, and none while the search button is enabled. *)
Definition one_worker (w : MainWindow) : Prop :=
  active_workers w ≤ 1
  ∧ (search_button_enabled w = true → active_workers w = 0).

(** [n] holds no separator, as the name of an entry does. *)
Fixpoint no_slash (n : string) : Prop :=
  match n with
  | EmptyString => True
  | String c r => c ≠ "/"%char ∧ no_slash r
  end.

(** *** Entries with ordinary names *)

(** The names of the entry, and of what it holds, have no separator. *)
Inductive plain_entry : entry → Prop :=
  | plain_File n : no_slash n → plain_entry (File n)
  | plain_Dir n content :
      no_slash n → Forall plain_entry content → plain_entry (Dir n content)
  | plain_DirLink n : no_slash n → plain_entry (DirLink n)
  | plain_DirDenied n : no_slash n → plain_entry (DirDenied n).

Definition plain_fs (fs : filesystem) : Prop :=
  ∀ r es, fs r = Some es → Forall plain_entry es.

(** *** Histories in which every match follows a call of [is_set()]

    The histories made of: a call of [is_set()]; a call that returned
    false followed by a match; a [progress]; a [finished]. *)
Inductive well_polled : list event → Prop :=
  | well_polled_nil : well_polled []
  | well_polled_poll b h : well_polled h → well_polled (IsSet b :: h)
  | well_polled_match p h :
      well_polled h → well_polled (IsSet false :: Emit (found p) :: h)
  | well_polled_progress n h :
      well_polled h → well_polled (Emit (progress n) :: h)
  | well_polled_finished h :
      well_polled h → well_polled (Emit finished :: h).

(** *** Fields of a line *)

(** No character of [s] is white space. *)
Fixpoint no_space (s : string) : Prop :=
  match s with
  | EmptyString => True
  | String c r => Str.isspace c = false ∧ no_space r
  end.

(** The roots before the mounts are added: the custom roots, or [/]. *)
Definition base_roots (w : MainWindow) : list string :=
  if custom_roots w is [] then ["/"] else custom_roots w.

(** *** Keywords without white space around them *)

(** [s] does not begin with white space. *)
Definition starts_clean (s : string) : Prop :=
  match s with
  | EmptyString => True
  | String c _ => Str.isspace c = false
  end.

(** [k] is not empty and neither begins nor ends with white space. *)
Definition trimmed (k : string) : Prop :=
  k ≠ "" ∧ starts_clean k ∧ starts_clean (String.rev k).

(** *** The indicators of the window *)

(** The search button is enabled exactly when the stop button is not, and
    the loader is visible exactly when the stop button is enabled. *)
Definition indicators_agree (w : MainWindow) : Prop :=
  search_button_enabled w = negb (stop_button_enabled w)
  ∧ loader_visible w = stop_button_enabled w.

(** The event by which the signal [sg] of the thread [i] reaches the
    window. *)
Definition deliver (i : nat) (sg : signal) : ui_event :=
  match sg with
  | found path => worker_found i path
  | progress n => worker_progress i n
  | finished => worker_finished i
  end.

(** The paths of the [found] signals among [sgs]. *)
Definition signal_paths (sgs : list signal) : list string :=
  omap (λ sg, if sg is found p then Some p else None) sgs.

(** The status that [on_finished] writes for [n] results. *)
Definition status_finished (n : nat) : string :=
  "Fini. " +:+ pretty n +:+ " r" +:+ e_acute +:+ "sultats".

(** *** The terminal that is chosen *)

(** The first candidate that [shutil_which] finds. *)
Definition chosen (which : string → bool) : option string :=
  head (filter (λ c, which c = true) candidates).

(** [folder] holds none of the characters that keep a meaning between
    double quotes in a shell: the double quote, the dollar, the backquote
    and the backslash. *)
Fixpoint quotable (folder : string) : Prop :=
  match folder with
  | EmptyString => True
  | String c r =>
      c ≠ "034"%char ∧ c ≠ "$"%char ∧ c ≠ "`"%char ∧ c ≠ "\"%char
      ∧ quotable r
  end.

(** *** A chain of directories, and a stop event set late *)

(** Directories nested [n] deep, each holding the next one only. *)
Fixpoint nested (n : nat) : list entry :=
  match n with
  | 0 => []
  | S m => [Dir "d" (nested m)]
  end.

(** A root [/deep] under which directories are nested [n] deep. *)
Definition deep_tree (n : nat) : filesystem := λ r,
  if bool_decide (r = "/deep") then Some (nested n) else None.

(** The stop event is set once [is_set()] has been called [k] times. *)
Definition stop_after (k : nat) : stop_event := λ n, bool_decide (k ≤ n).

(** *** Matching, as [run] tests it *)

(** The keyword, in lower case, is a substring of the name in lower
    case: [keyword.lower() in name.lower()]. *)
Definition lowered_contains (name kw : string) : Prop :=
  ∃ pre suf, Str.lower name = pre +:+ Str.lower kw +:+ suf.

(** *** The eighth claim, as it is stated *)

(** The read of the table fails: an exception leaves the [try] block. *)
Definition read_fails (f : proc_mounts) : Prop :=
  (read_mounts f).2 ≠ None.

(** Every read that fails gives the empty list. *)
Definition failed_read_gives_nothing : Prop :=
  ∀ f, read_fails f → find_mounts_external f = [].

(** ** The actions on a result *)

(** The entries of the context menu. *)
Inductive menu_action :=
  | copy_act
  | open_parent_act
  | open_here_act
  | open_file_act.

(** What an action does: nothing, a text put in the clipboard, a launch of
    a terminal, or a file handed to [QDesktopServices.openUrl]. *)
Inductive effect :=
  | NoEffect
  | ClipboardSet (text : string)
  | Terminal (l : launch)
  | OpenUrl (path : string).

(** [MainWindow.show_context_menu]: [item] is the item under the pointer,
    if any, [act] the entry that the user picks, if any, and [isdir] is
    [os.path.isdir]. *)
Definition show_context_menu (which : string → bool) (isdir : string → bool)
    (item : option string) (act : option menu_action) : effect :=
  match item with
  | None => NoEffect
  | Some path =>
      match act with
      | Some copy_act => ClipboardSet path
      | Some open_parent_act =>
          let d := PosixPath.dirname path in
          let d := if bool_decide (d = "") then path else d in
          Terminal (open_terminal_at which d)
      | Some open_here_act =>
          if isdir path then Terminal (open_terminal_at which path)
          else Terminal (open_terminal_at which (PosixPath.dirname path))
      | Some open_file_act => OpenUrl path
      | None => NoEffect
      end
  end.

(** [MainWindow.open_item], the double click on a result. *)
Definition open_item (which : string → bool) (isdir : string → bool)
    (path : string) : effect :=
  if isdir path then Terminal (open_terminal_at which path)
  else OpenUrl path.

(** * Properties *)

#[local] Arguments Nat.modulo : simpl never.


(** ** Strings *)

Section strings.
Implicit Types s p r : string.

Lemma append_cons c s p : String c s +:+ p = String c (s +:+ p).
Proof. reflexivity. Qed.

Lemma append_nil_l s : "" +:+ s = s.
Proof. reflexivity. Qed.

Lemma append_nil_r s : s +:+ "" = s.
Proof. induction s as [|c s IH]; [done|]. by rewrite append_cons, IH. Qed.

Lemma append_assoc s p r : (s +:+ p) +:+ r = s +:+ (p +:+ r).
Proof. induction s as [|c s IH]; [done|]. by rewrite !append_cons, IH. Qed.

Lemma startswith_begins s p : Str.startswith s p = true ↔ begins_with s p.
Proof.
  unfold begins_with. revert s.
  induction p as [|a p IH]; intros s; simpl.
  - split; [intros _; by exists s | done].
  - destruct s as [|b s].
    + split; [done | intros [r Hr]; by rewrite append_cons in Hr].
    + destruct (decide (a = b)) as [->|Hne].
      * rewrite IH. split; intros [r Hr]; exists r;
          rewrite append_cons in *; congruence.
      * split; [done | intros [r Hr]; rewrite append_cons in Hr; congruence].
Qed.

Lemma is_external_device_spec dev :
  is_external_device dev = true ↔ external_device dev.
Proof.
  unfold is_external_device, external_device, external_prefixes.
  rewrite !orb_true_iff, !startswith_begins. split.
  - intros [[H|H]|H]; eexists; (split; [|exact H]); set_solver.
  - intros (p & Hp & H).
    rewrite !elem_of_cons, elem_of_nil in Hp.
    destruct Hp as [->|[->|[->|[]]]]; auto.
Qed.
Lemma contains_spec sub s :
  Str.contains sub s = true ↔ ∃ pre suf, s = pre +:+ sub +:+ suf.
Proof.
  split.
  - induction s as [|c s IH]; simpl; rewrite orb_true_iff.
    + intros [[r Hr]%startswith_begins|]; [|done]. by exists "", r.
    + intros [[r Hr]%startswith_begins|Hs]; [by exists "", r|].
      destruct (IH Hs) as (pre & suf & ->). by exists (String c pre), suf.
  - intros (pre & suf & ->). induction pre as [|c pre IH].
    + rewrite append_nil_l. destruct (sub +:+ suf) eqn:Heq; simpl;
        rewrite <-?Heq; apply orb_true_iff; left;
        apply startswith_begins; by exists suf.
    + rewrite append_cons. simpl. rewrite IH. apply orb_true_r.
Qed.

End strings.

(** ** The mount enumerator *)

Lemma scan_mount_line_app mounts line :
  scan_mount_line mounts line = mounts ++ line_mounts line.
Proof.
  unfold scan_mount_line, line_mounts.
  destruct (Str.split line) as [|dev [|mnt rest]]; rewrite ?app_nil_r; try done.
  destruct (is_external_device dev); by rewrite ?app_nil_r.
Qed.

Lemma foldl_scan_mount_line mounts ls :
  foldl scan_mount_line mounts ls = mounts ++ (ls ≫= line_mounts).
Proof.
  revert mounts. induction ls as [|line ls IH]; intros mounts; simpl.
  - by rewrite app_nil_r.
  - rewrite IH, scan_mount_line_app. by rewrite <-app_assoc.
Qed.

Lemma elem_of_line_mounts line mnt :
  mnt ∈ line_mounts line ↔ ∃ dev, mount_record line dev mnt ∧ external_device dev.
Proof.
  unfold line_mounts, mount_record. split.
  - destruct (Str.split line) as [|dev [|m rest]]; try by intros ?%elem_of_nil.
    destruct (is_external_device dev) eqn:Hdev; [|by intros ?%elem_of_nil].
    intros ->%list_elem_of_singleton. exists dev.
    split; [by exists rest | by apply is_external_device_spec].
  - intros (dev & [rest ->] & Hdev%is_external_device_spec).
    rewrite Hdev. by apply list_elem_of_singleton.
Qed.

Lemma elem_of_sorted_set l x : x ∈ sorted_set l ↔ x ∈ l.
Proof.
  unfold sorted_set. rewrite merge_sort_Permutation, elem_of_elements.
  by rewrite elem_of_list_to_set.
Qed.

Lemma NoDup_sorted_set l : NoDup (sorted_set l).
Proof.
  unfold sorted_set. rewrite merge_sort_Permutation. apply NoDup_elements.
Qed.

Lemma StronglySorted_strict {A} (R : relation A) `{!PartialOrder R} l :
  Sorted R l → NoDup l → StronglySorted (strict R) l.
Proof.
  intros Hs%Sorted_StronglySorted; [|apply _].
  induction Hs as [|x l Hl IH Hx]; intros Hnd; [constructor|].
  apply NoDup_cons in Hnd as [Hnotin Hnd].
  constructor; [by apply IH|].
  apply Forall_forall. intros y Hy.
  assert (R x y) as Hxy by (by apply (proj1 (Forall_forall _ _) Hx)).
  split; [done|]. intros Hyx.
  apply Hnotin. by rewrite (anti_symm R x y Hxy Hyx).
Qed.

Lemma sorted_set_ascending l : StronglySorted (strict String.le) (sorted_set l).
Proof.
  apply StronglySorted_strict; [apply _| |apply NoDup_sorted_set].
  unfold sorted_set. apply Sorted_merge_sort, _.
Qed.

Lemma mounts_of_lines ls :
  find_mounts_external (Lines ls) = sorted_set (ls ≫= line_mounts).
Proof. unfold find_mounts_external; simpl. by rewrite foldl_scan_mount_line. Qed.

Lemma mounts_of_partial_read ls e :
  find_mounts_external (LinesThenError ls e) = find_mounts_external (Lines ls).
Proof. reflexivity. Qed.

Lemma elem_of_find_mounts_external ls mnt :
  mnt ∈ find_mounts_external (Lines ls) ↔
  ∃ line dev, line ∈ ls ∧ mount_record line dev mnt ∧ external_device dev.
Proof.
  rewrite mounts_of_lines, elem_of_sorted_set, list_elem_of_bind.
  setoid_rewrite elem_of_line_mounts. split.
  - intros (line & (dev & ? & ?) & ?). by exists line, dev.
  - intros (line & dev & ? & ? & ?). exists line. split; [by exists dev|done].
Qed.

(** C7. On the table of the three lines [/dev/sda1 /media/usb1],
    [/dev/sdb2 /mnt/data], [/dev/loop0 /snap/x], the enumeration returns
    [/media/usb1] and [/mnt/data], and nothing else. On every table, a mount
    point is returned if and only if it is the second field of a line whose
    first field, the device, begins with [/dev/sd], [/dev/mmcblk] or
    [/dev/nvme]. *)
Theorem find_mounts_external_synthetic_table :
  find_mounts_external (Lines synthetic_table) = ["/media/usb1"; "/mnt/data"]
  ∧ ∀ ls mnt,
      mnt ∈ find_mounts_external (Lines ls) ↔
      ∃ line dev, line ∈ ls ∧ mount_record line dev mnt ∧ external_device dev.
Proof.
  split; [by vm_compute|]. apply elem_of_find_mounts_external.
Qed.

(** C8, as stated, fails: when the read of a later line raises, the mount
    point of a line read before is returned. *)
Lemma find_mounts_external_partial_not_empty :
  ¬ failed_read_gives_nothing.
Proof.
  intros H.
  specialize (H (LinesThenError ["/dev/sda1 /a"] OtherOSError)).
  assert (read_fails (LinesThenError ["/dev/sda1 /a"] OtherOSError)) as Hf
    by done.
  apply H in Hf. vm_compute in Hf. discriminate.
Qed.

(** C8, amended. When [/proc/mounts] cannot be opened, whatever the
    exception is (the file is missing, the permission is denied, ...), the
    enumeration returns the empty list. When a read raises after some
    lines were read, it returns what it returns for these lines alone:
    the mount points of those of them that name an external device. No
    exception reaches the caller: the result is a list in every case. *)
Theorem find_mounts_external_read_fails :
  (∀ e, find_mounts_external (OpenFails e) = [])
  ∧ (∀ ls e,
       find_mounts_external (LinesThenError ls e)
       = find_mounts_external (Lines ls))
  ∧ (∀ ls e mnt,
       mnt ∈ find_mounts_external (LinesThenError ls e) ↔
       ∃ line dev, line ∈ ls ∧ mount_record line dev mnt ∧ external_device dev).
Proof.
  split_and!.
  - intros e. unfold find_mounts_external, read_mounts, sorted_set.
    by rewrite list_to_set_nil, elements_empty.
  - intros ls e. apply mounts_of_partial_read.
  - intros ls e mnt. rewrite mounts_of_partial_read.
    apply elem_of_find_mounts_external.
Qed.

(** C10. Whatever the content of the mount table, the result is in strictly
    ascending order of strings (so it is sorted and has no duplicate), it
    holds exactly the mount points that the lines give, and a line of fewer
    than two fields changes nothing. *)
Theorem find_mounts_external_sorted_dedup (f : proc_mounts) :
  StronglySorted (strict String.le) (find_mounts_external f)
  ∧ NoDup (find_mounts_external f)
  ∧ (∀ ls mnt, f = Lines ls →
       (mnt ∈ find_mounts_external f ↔ mnt ∈ ls ≫= line_mounts))
  ∧ (∀ ls1 line ls2,
       f = Lines (ls1 ++ line :: ls2) → length (Str.split line) < 2 →
       find_mounts_external f = find_mounts_external (Lines (ls1 ++ ls2))).
Proof.
  split_and!.
  - unfold find_mounts_external. destruct (read_mounts f) as [mounts ?].
    apply sorted_set_ascending.
  - unfold find_mounts_external. destruct (read_mounts f) as [mounts ?].
    apply NoDup_sorted_set.
  - intros ls mnt ->. by rewrite mounts_of_lines, elem_of_sorted_set.
  - intros ls1 line ls2 -> Hshort. rewrite !mounts_of_lines.
    f_equal. rewrite !bind_app, bind_cons.
    unfold line_mounts at 2.
    destruct (Str.split line) as [|dev [|m rest]]; simpl in *; [done..|lia].
Qed.

Lemma find_mounts_external_sorted_dedup_witness :
  find_mounts_external (Lines ["/dev/sda1 /a"; "/dev/sdb1"; "/dev/sdc1 /b"])
  = find_mounts_external (Lines ["/dev/sda1 /a"; "/dev/sdc1 /b"]).
Proof.
  apply (find_mounts_external_sorted_dedup
           (Lines ["/dev/sda1 /a"; "/dev/sdb1"; "/dev/sdc1 /b"]))
    with (ls1 := ["/dev/sda1 /a"]) (line := "/dev/sdb1");
    [reflexivity | vm_compute; lia].
Defined.

(** ** The traversal worker *)

(** *** The monad *)

Lemma bind_unfold {A B} (m : Run A) (k : A → Run B) s :
  (m ≫= k) s =
  match m s with
  | Next a s' => k a s'
  | Returned s' => Returned s'
  end.
Proof. reflexivity. Qed.

Lemma for_each_cons {X} (x : X) (l : list X) (body : X → Run unit) s :
  for_each (x :: l) body s =
  match body x s with
  | Next _ s' => for_each l body s'
  | Returned s' => Returned s'
  end.
Proof. reflexivity. Qed.

Lemma for_each_app {X} (l1 l2 : list X) (body : X → Run unit) s :
  for_each (l1 ++ l2) body s =
  match for_each l1 body s with
  | Next _ s' => for_each l2 body s'
  | Returned s' => Returned s'
  end.
Proof.
  revert s. induction l1 as [|x l1 IH]; intros s; [done|].
  rewrite <-app_comm_cons, !for_each_cons.
  destruct (body x s) as [[] s'|s']; [apply IH|done].
Qed.

Lemma exec_steps_app stop l1 l2 s :
  exec_steps stop (l1 ++ l2) s =
  match exec_steps stop l1 s with
  | Next _ s' => exec_steps stop l2 s'
  | Returned s' => Returned s'
  end.
Proof. apply for_each_app. Qed.

Lemma for_each_bind {X} (f : X → list step) (body : X → Run unit) stop xs s :
  (∀ x s, body x s = exec_steps stop (f x) s) →
  for_each xs body s = exec_steps stop (xs ≫= f) s.
Proof.
  intros Hbody. revert s. induction xs as [|x xs IH]; intros s; [done|].
  rewrite bind_cons, exec_steps_app, for_each_cons, Hbody.
  destruct (exec_steps stop (f x) s) as [[] s'|s']; [apply IH|done].
Qed.

Lemma bind_bind {X Y Z} (f : X → list Y) (g : Y → list Z) (l : list X) :
  (l ≫= f) ≫= g = l ≫= (λ x, f x ≫= g).
Proof.
  induction l as [|x l IH]; [done|].
  by rewrite !bind_cons, bind_app, IH.
Qed.

Lemma when_false m s : when false m s = Next () s.
Proof. reflexivity. Qed.
Lemma when_true m s : when true m s = m s.
Proof. reflexivity. Qed.

(** *** The loops of [run], unrolled *)

Section unroll.
Context (fs : filesystem) (self : SearchWorker).
Let stop := _stop_event self.
Let kw := keyword self.

Ltac run_unfold :=
  unfold exec_step, mbind, run_bind, mret, run_ret, is_set, when, emit,
    return_, incr_total, get_total.

Lemma run_file_steps dirpath fname s :
  run_file self dirpath fname s =
  exec_steps stop (file_steps kw dirpath fname) s.
Proof.
  unfold run_file, file_steps, exec_steps. rewrite for_each_cons.
  subst stop kw. run_unfold. simpl.
  destruct (_stop_event self (polls s)); [done|].
  by destruct (Str.contains _ _).
Qed.

Lemma run_dir_tail dirpath filenames s :
  (for_each filenames (run_file self dirpath) ;; incr_total ;;
   total ← get_total; when (total mod 500 =? 0) (emit (progress total))) s =
  exec_steps stop ((filenames ≫= file_steps kw dirpath) ++ [Tick]) s.
Proof.
  rewrite bind_unfold, exec_steps_app.
  rewrite (for_each_bind (file_steps kw dirpath) _ stop);
    [|apply run_file_steps].
  destruct (exec_steps _ _ _) as [[] s'|s']; [|done].
  unfold exec_steps. rewrite for_each_cons. unfold exec_step.
  rewrite !bind_unfold. unfold incr_total, get_total.
  rewrite !bind_unfold. unfold when.
  by destruct (_ =? 0).
Qed.

Lemma run_dir_steps item s :
  run_dir self item s = exec_steps stop (dir_steps kw item) s.
Proof.
  destruct item as [[dirpath dirnames] filenames].
  unfold run_dir, dir_steps.
  change (Poll :: ?l ++ ?r) with ((Poll :: l) ++ r).
  rewrite exec_steps_app.
  unfold exec_steps at 1. rewrite for_each_cons.
  rewrite bind_unfold. unfold exec_step at 1. rewrite bind_unfold.
  unfold is_set at 1 2. fold stop.
  destruct (stop (polls s)) eqn:Hset; [done|].
  rewrite bind_unfold, !when_false. fold kw.
  destruct (Str.contains kw _).
  - rewrite bind_unfold, when_true, for_each_cons. apply run_dir_tail.
  - rewrite bind_unfold, when_false. apply run_dir_tail.
Qed.

Lemma run_steps_correct s :
  run fs self s =
  match exec_steps stop (run_steps fs self) s with
  | Next _ s' => emit finished s'
  | Returned s' => Returned s'
  end.
Proof.
  unfold run, run_steps. rewrite bind_unfold.
  assert (∀ root s, for_each (os_walk fs root) (run_dir self) s
            = exec_steps stop (os_walk fs root ≫= dir_steps kw) s) as Hroot.
  { intros root s0. apply for_each_bind, run_dir_steps. }
  rewrite (for_each_bind (λ root, os_walk fs root ≫= dir_steps kw) _ stop _ _ Hroot).
  by rewrite bind_bind.
Qed.
End unroll.

(** *** Running a sequence of steps *)

Lemma ticks_cons st l :
  ticks (st :: l) = (if st is Tick then 1 else 0) + ticks l.
Proof. by destruct st. Qed.

Lemma poll_count_cons st l :
  poll_count (st :: l) = (if st is Poll then 1 else 0) + poll_count l.
Proof. by destruct st. Qed.

Lemma ticks_app l1 l2 : ticks (l1 ++ l2) = ticks l1 + ticks l2.
Proof. unfold ticks. by rewrite filter_app, length_app. Qed.

Lemma poll_count_app l1 l2 : poll_count (l1 ++ l2) = poll_count l1 + poll_count l2.
Proof. unfold poll_count. by rewrite filter_app, length_app. Qed.

Lemma quiet_history_app t l1 l2 :
  quiet_history t (l1 ++ l2) =
  quiet_history t l1 ++ quiet_history (t + ticks l1) l2.
Proof.
  revert t. induction l1 as [|[|p|] l1 IH]; intros t; simpl.
  - by rewrite Nat.add_0_r.
  - by rewrite IH, ticks_cons.
  - by rewrite IH, ticks_cons.
  - rewrite IH, ticks_cons, <-app_assoc. simpl.
    do 3 f_equal. lia.
Qed.

Ltac frame_eq := f_equal; try lia; by rewrite <-?app_assoc.

(** How a sequence of steps ends, from the frame [s]: it runs to its end and
    every call of [is_set()] returned false, or one call returned true, at
    some [Poll] of the sequence, and the run returned there. *)
Lemma exec_steps_spec stop l s :
  match exec_steps stop l s with
  | Next _ s' =>
      s' = Frame (total s + ticks l) (polls s + poll_count l)
             (history s ++ quiet_history (total s) l)
      ∧ ∀ i, i < poll_count l → stop (polls s + i) = false
  | Returned s' =>
      ∃ l1 l2, l = l1 ++ Poll :: l2
        ∧ s' = Frame (total s + ticks l1) (S (polls s + poll_count l1))
                 (history s ++ quiet_history (total s) l1
                    ++ [IsSet true; Emit finished])
        ∧ stop (polls s + poll_count l1) = true
        ∧ ∀ i, i < poll_count l1 → stop (polls s + i) = false
  end.
Proof.
  revert s. induction l as [|st l IH]; intros s.
  - simpl. destruct s as [t n h]; simpl. split.
    + by rewrite !Nat.add_0_r, app_nil_r.
    + intros i Hi. by apply Nat.nlt_0_r in Hi.
  - unfold exec_steps. rewrite for_each_cons. fold (exec_steps stop l).
    destruct st as [|p|].
    + (* Poll *)
      unfold exec_step. rewrite bind_unfold. unfold is_set.
      destruct (stop (polls s)) eqn:Hset.
      * rewrite when_true, bind_unfold. unfold emit, return_. simpl.
        exists [], l. split_and!; simpl.
        -- done.
        -- rewrite !Nat.add_0_r. by rewrite <-app_assoc.
        -- by rewrite Nat.add_0_r.
        -- intros i Hi. by apply Nat.nlt_0_r in Hi.
      * rewrite when_false.
        specialize (IH (Frame (total s) (S (polls s)) (history s ++ [IsSet false]))).
        destruct (exec_steps stop l _) as [[] s'|s']; simpl in IH.
        -- destruct IH as [-> Hfalse]. rewrite poll_count_cons, ticks_cons. simpl.
           split.
           { frame_eq. }
           intros [|i] Hi; [by rewrite Nat.add_0_r|].
           replace (polls s + S i) with (S (polls s + i)) by lia.
           apply Hfalse. lia.
        -- destruct IH as (l1 & l2 & -> & -> & Htrue & Hfalse).
           exists (Poll :: l1), l2. rewrite poll_count_cons, ticks_cons. simpl.
           split_and!.
           ++ done.
           ++ frame_eq.
           ++ by replace (polls s + S (poll_count l1))
                with (S (polls s + poll_count l1)) by lia.
           ++ intros [|i] Hi; [by rewrite Nat.add_0_r|].
              replace (polls s + S i) with (S (polls s + i)) by lia.
              apply Hfalse. lia.
    + (* Match *)
      unfold exec_step, emit.
      specialize (IH (Frame (total s) (polls s) (history s ++ [Emit (found p)]))).
      destruct (exec_steps stop l _) as [[] s'|s']; simpl in IH.
      * destruct IH as [-> Hfalse]. rewrite poll_count_cons, ticks_cons. simpl.
        split; [|done]. by rewrite <-app_assoc.
      * destruct IH as (l1 & l2 & -> & -> & Htrue & Hfalse).
        exists (Match p :: l1), l2. rewrite poll_count_cons, ticks_cons. simpl.
        split_and!; [done| |done..]. by rewrite <-app_assoc.
    + (* Tick *)
      unfold exec_step. rewrite !bind_unfold. unfold incr_total at 1.
      rewrite bind_unfold. unfold get_total at 1. simpl total.
      set (ev := progress_after (S (total s))).
      specialize (IH (Frame (S (total s)) (polls s) (history s ++ ev))).
      assert (when (S (total s) mod 500 =? 0) (emit (progress (S (total s))))
                (Frame (S (total s)) (polls s) (history s))
              = Next () (Frame (S (total s)) (polls s) (history s ++ ev))) as ->.
      { subst ev. unfold when, progress_after. destruct (_ =? 0); [done|].
        unfold mret, run_ret. by rewrite app_nil_r. }
      destruct (exec_steps stop l _) as [[] s'|s']; simpl in IH.
      * destruct IH as [-> Hfalse]. rewrite poll_count_cons, ticks_cons.
        simpl quiet_history. fold ev. split; [|done].
        frame_eq.
      * destruct IH as (l1 & l2 & -> & -> & Htrue & Hfalse).
        exists (Tick :: l1), l2. rewrite poll_count_cons, ticks_cons.
        simpl quiet_history. fold ev.
        split_and!; [done| |done..].
        frame_eq.
Qed.

(** *** The shape of a run *)

Section run_cases.
Context (fs : filesystem) (self : SearchWorker).
Let stop := _stop_event self.
Let l := run_steps fs self.

(** A run whose walks run to their end either exhausts the roots, or
    returns at a call of [is_set()] that returned true. *)
Lemma run_thread_cases :
  (run_thread fs self
     = Frame (ticks l) (poll_count l) (quiet_history 0 l ++ [Emit finished])
   ∧ ∀ i, i < poll_count l → stop i = false)
  ∨ (∃ l1 l2, l = l1 ++ Poll :: l2
       ∧ run_thread fs self
           = Frame (ticks l1) (S (poll_count l1))
               (quiet_history 0 l1 ++ [IsSet true; Emit finished])
       ∧ stop (poll_count l1) = true
       ∧ ∀ i, i < poll_count l1 → stop i = false).
Proof.
  unfold run_thread. rewrite run_steps_correct. fold l stop.
  pose proof (exec_steps_spec stop l (Frame 0 0 [])) as H.
  destruct (exec_steps stop l _) as [[] s'|s']; simpl in H.
  - left. destruct H as [-> H]. split; [|done]. by unfold emit.
  - right. destruct H as (l1 & l2 & ? & -> & ? & ?). by exists l1, l2.
Qed.
End run_cases.

Lemma run_thread_never_set fs rs kw :
  let l := run_steps fs (SearchWorker_init rs kw never_set) in
  run_thread fs (SearchWorker_init rs kw never_set)
  = Frame (ticks l) (poll_count l) (quiet_history 0 l ++ [Emit finished]).
Proof.
  intros l. destruct (run_thread_cases fs (SearchWorker_init rs kw never_set))
    as [[H _]|(l1 & l2 & _ & _ & H & _)]; [done|discriminate].
Qed.

(** *** What the quiet history holds *)

Lemma signals_app h1 h2 : signals (h1 ++ h2) = signals h1 ++ signals h2.
Proof. apply omap_app. Qed.

Lemma found_paths_app h1 h2 :
  found_paths (h1 ++ h2) = found_paths h1 ++ found_paths h2.
Proof. apply omap_app. Qed.


Lemma finished_not_in_progress_after n : finished ∉ signals (progress_after n).
Proof.
  unfold progress_after. destruct (_ =? 0); simpl; [|apply not_elem_of_nil].
  by intros [=]%list_elem_of_singleton.
Qed.

Lemma finished_not_in_quiet_history t l : finished ∉ signals (quiet_history t l).
Proof.
  revert t. induction l as [|[|p|] l IH]; intros t; simpl.
  - apply not_elem_of_nil.
  - apply IH.
  - rewrite not_elem_of_cons. split; [done|apply IH].
  - rewrite signals_app, not_elem_of_app.
    split; [apply finished_not_in_progress_after|apply IH].
Qed.

Lemma set_not_in_quiet_history t l : IsSet true ∉ quiet_history t l.
Proof.
  revert t. induction l as [|[|p|] l IH]; intros t; simpl.
  - apply not_elem_of_nil.
  - rewrite not_elem_of_cons. split; [done|apply IH].
  - rewrite not_elem_of_cons. split; [done|apply IH].
  - rewrite not_elem_of_app. split; [|apply IH].
    unfold progress_after. destruct (_ =? 0); [|apply not_elem_of_nil].
    by intros [=]%list_elem_of_singleton.
Qed.

Lemma count_finished_app h1 h2 :
  count_finished (h1 ++ h2) = count_finished h1 + count_finished h2.
Proof. unfold count_finished. by rewrite signals_app, filter_app, length_app. Qed.

Lemma count_finished_absent h : finished ∉ signals h → count_finished h = 0.
Proof.
  unfold count_finished. intros Hnot.
  destruct (filter _ _) as [|sg r] eqn:Hf; [done|].
  assert (sg ∈ filter (λ sg, sg = finished) (signals h)) as Hin
    by (rewrite Hf; left).
  apply list_elem_of_filter in Hin as [-> ?]. done.
Qed.

Lemma app_pivot_unique {X} (x : X) (a b a' b' : list X) :
  x ∉ a → x ∉ b → a ++ x :: b = a' ++ x :: b' → a = a' ∧ b = b'.
Proof.
  revert a'. induction a as [|y a IH]; intros a' Ha Hb Heq.
  - destruct a' as [|z a']; simplify_eq/=; [done|].
    exfalso. apply Hb. apply elem_of_app. right. left.
  - apply not_elem_of_cons in Ha as [Hne Ha].
    destruct a' as [|z a']; simplify_eq/=.
    destruct (IH a' Ha Hb) as [-> ->]; done.
Qed.

Lemma run_steps_init fs rs kw stop :
  run_steps fs (SearchWorker_init rs kw stop)
  = visited_items fs rs ≫= dir_steps (Str.lower kw).
Proof. reflexivity. Qed.

Lemma poll_count_file_steps kw d (fn : list string) :
  poll_count (fn ≫= file_steps kw d) = length fn.
Proof.
  induction fn as [|f fn IH]; [done|].
  rewrite bind_cons, poll_count_app, IH. unfold file_steps.
  by destruct (Str.contains _ _).
Qed.

Lemma ticks_file_steps kw d (fn : list string) :
  ticks (fn ≫= file_steps kw d) = 0.
Proof.
  induction fn as [|f fn IH]; [done|].
  rewrite bind_cons, ticks_app, IH. unfold file_steps.
  by destruct (Str.contains _ _).
Qed.

Lemma poll_count_dir_steps kw item :
  poll_count (dir_steps kw item) = 1 + length item.2.
Proof.
  destruct item as [[d dn] fn]. unfold dir_steps.
  rewrite poll_count_cons, !poll_count_app, poll_count_file_steps.
  destruct (Str.contains _ _); simpl; unfold poll_count; simpl; lia.
Qed.

Lemma ticks_dir_steps kw item : ticks (dir_steps kw item) = 1.
Proof.
  destruct item as [[d dn] fn]. unfold dir_steps.
  rewrite ticks_cons, !ticks_app, ticks_file_steps.
  by destruct (Str.contains _ _).
Qed.

Lemma poll_count_items kw (items : list walk_item) :
  poll_count (items ≫= dir_steps kw)
  = length items + length (items ≫= λ item, item.2).
Proof.
  induction items as [|item items IH]; [done|].
  rewrite !bind_cons, poll_count_app, poll_count_dir_steps, IH, length_app.
  simpl. lia.
Qed.

Lemma ticks_items kw (items : list walk_item) :
  ticks (items ≫= dir_steps kw) = length items.
Proof.
  induction items as [|item items IH]; [done|].
  rewrite !bind_cons, ticks_app, ticks_dir_steps, IH. done.
Qed.

(** ** Paths *)

Lemma rev_app_append s acc : String.rev_app s acc = String.rev s +:+ acc.
Proof.
  unfold String.rev. revert acc.
  induction s as [|c s IH]; intros acc; [done|]. simpl.
  rewrite (IH (String c acc)), (IH (String c "")).
  by rewrite append_assoc.
Qed.

Lemma rev_cons c s : String.rev (String c s) = String.rev s +:+ String c "".
Proof. unfold String.rev at 1. simpl. apply rev_app_append. Qed.

Lemma rev_append s p : String.rev (s +:+ p) = String.rev p +:+ String.rev s.
Proof.
  induction s as [|c s IH].
  - by rewrite append_nil_l, append_nil_r.
  - by rewrite append_cons, !rev_cons, IH, append_assoc.
Qed.

Lemma rev_involutive s : String.rev (String.rev s) = s.
Proof.
  induction s as [|c s IH]; [done|].
  by rewrite rev_cons, rev_append, IH.
Qed.

Lemma endswith_slash a :
  Str.endswith a "/" = true → ∃ a', a = a' +:+ "/".
Proof.
  unfold Str.endswith. intros [r Hr]%startswith_begins.
  exists (String.rev r). rewrite <-(rev_involutive a), Hr.
  change (String.rev "/" +:+ r) with (String "/" r). by rewrite rev_cons.
Qed.

Lemma basename_from_no_slash cur n :
  no_slash n → PosixPath.basename_from cur n = cur.
Proof.
  revert cur. induction n as [|c n IH]; intros cur; [done|].
  intros [Hc Hn]. cbn [PosixPath.basename_from].
  rewrite decide_False by done. by apply IH.
Qed.

Lemma basename_from_slash cur a n :
  PosixPath.basename_from cur (a +:+ String "/" n)
  = PosixPath.basename_from n n.
Proof.
  revert cur. induction a as [|c a IH]; intros cur.
  - rewrite append_nil_l. cbn [PosixPath.basename_from].
    by rewrite decide_True.
  - rewrite append_cons. cbn [PosixPath.basename_from].
    destruct (decide _); apply IH.
Qed.

(** The base name of the path that [os.walk] builds for an entry is the
    name of the entry. *)
Lemma basename_join d n :
  no_slash n → PosixPath.basename (PosixPath.join d n) = n.
Proof.
  intros Hn. unfold PosixPath.join, PosixPath.basename.
  assert (Str.startswith n "/" = false) as ->.
  { destruct n as [|c n]; [done|]. destruct Hn as [Hc _].
    cbn [Str.startswith]. by destruct (decide _) as [<-|]. }
  case_bool_decide as Ha; simpl.
  - subst d. rewrite append_nil_l. by apply basename_from_no_slash.
  - destruct (Str.endswith d "/") eqn:Hd.
    + apply endswith_slash in Hd as [a' ->]. rewrite append_assoc.
      change ("/" +:+ n) with (String "/" n).
      rewrite basename_from_slash. by apply basename_from_no_slash.
    + change ("/" +:+ n) with (String "/" n).
      rewrite basename_from_slash. by apply basename_from_no_slash.
Qed.

(** ** The roots that the window gives to a worker *)

(** A folder chosen twice is twice among the roots. *)
Example roots_repeated :
  thread_roots <$> last (threads (handle_all (Lines [])
    [folder_chosen "/home/u"; folder_chosen "/home/u"; text_edited "foo";
     search_clicked]))
  = Some ["/home/u"; "/home/u"].
Proof. by vm_compute. Qed.

(** The mount points are added to the default root, which holds them. *)
Example roots_nested :
  thread_roots <$> last (threads (handle_all (Lines synthetic_table)
    [external_toggled true; text_edited "foo"; search_clicked]))
  = Some ["/"; "/media/usb1"; "/mnt/data"].
Proof. by vm_compute. Qed.

(** *** The progress signals *)



Lemma quiet_history_dir_steps kw t item :
  quiet_history t (dir_steps kw item)
  = dir_events kw item ++ progress_after (S t).
Proof.
  destruct item as [[d dn] fn]. unfold dir_steps, dir_events.
  assert (∀ l, quiet_history t ((fn ≫= file_steps kw d) ++ l)
               = (fn ≫= file_events kw d) ++ quiet_history t l) as Hfiles.
  { intros l. induction fn as [|f fn IH]; [done|].
    rewrite !bind_cons, <-!app_assoc. unfold file_steps at 1, file_events at 1.
    destruct (Str.contains _ _); simpl; by rewrite IH. }
  destruct (Str.contains _ _); simpl; rewrite Hfiles; simpl;
    by rewrite app_nil_r.
Qed.




Lemma entry_ind' (P : entry → Prop) :
  (∀ n, P (File n)) →
  (∀ n content, Forall P content → P (Dir n content)) →
  (∀ n, P (DirLink n)) →
  (∀ n, P (DirDenied n)) →
  ∀ e, P e.
Proof.
  intros HFile HDir HLink HDenied.
  refine (fix go e := match e with
                      | File n => HFile n
                      | Dir n content => HDir n content _
                      | DirLink n => HLink n
                      | DirDenied n => HDenied n
                      end).
  induction content as [|e' content IH]; constructor; [apply go|apply IH].
Qed.

(** *** The walk and the tree *)

Lemma elem_of_filenames_of f es : f ∈ filenames_of es ↔ File f ∈ es.
Proof.
  unfold filenames_of. rewrite list_elem_of_fmap. split.
  - intros (e & -> & [He Hin]%list_elem_of_filter). by destruct e.
  - intros Hin. exists (File f). split; [done|]. by apply list_elem_of_filter.
Qed.

Lemma walk_entry_Dir top n content :
  walk_entry top (Dir n content) = walk_from (PosixPath.join top n) content.
Proof. reflexivity. Qed.

Lemma descends_walk_from top es0 d es :
  descends top es0 d es →
  (d, dirnames_of es, filenames_of es) ∈ walk_from top es0.
Proof.
  induction 1 as [top es0|top es0 n content d es Hin _ IH]; [left|].
  right. apply list_elem_of_bind. exists (Dir n content). by split.
Qed.

Lemma walk_entry_descends e :
  ∀ top item, item ∈ walk_entry top e →
    ∃ n content d es, e = Dir n content
      ∧ descends (PosixPath.join top n) content d es
      ∧ item = (d, dirnames_of es, filenames_of es).
Proof.
  induction e as [n|n content IH|n|n] using entry_ind';
    intros top item Hin; try by apply elem_of_nil in Hin.
  exists n, content. rewrite walk_entry_Dir in Hin. unfold walk_from in Hin.
  apply elem_of_cons in Hin as [->|Hin].
  - eexists _, _. split_and!; [done|constructor|done].
  - apply list_elem_of_bind in Hin as (e & Hin & He).
    rewrite Forall_forall in IH.
    destruct (IH e He _ _ Hin) as (n' & c' & d & es & -> & Hdesc & ->).
    exists d, es. split_and!; [done| |done].
    by apply descends_into with n' c'.
Qed.

Lemma elem_of_walk_from top es0 item :
  item ∈ walk_from top es0 ↔
  ∃ d es, descends top es0 d es ∧ item = (d, dirnames_of es, filenames_of es).
Proof.
  split.
  - intros [->|Hin]%elem_of_cons.
    + eexists _, _. split; [constructor|done].
    + apply list_elem_of_bind in Hin as (e & Hin & He).
      apply walk_entry_descends in Hin as (n & c & d & es & -> & Hdesc & ->).
      exists d, es. split; [|done]. by apply descends_into with n c.
  - intros (d & es & Hdesc & ->). by apply descends_walk_from.
Qed.

Lemma os_walk_walk_from fs r :
  os_walk fs r = if fs r is Some es then walk_from r es else [].
Proof. reflexivity. Qed.

Lemma elem_of_visited_items fs rs item :
  item ∈ visited_items fs rs ↔
  ∃ d es, visited fs rs d es ∧ item = (d, dirnames_of es, filenames_of es).
Proof.
  unfold visited_items, visited. rewrite list_elem_of_bind. split.
  - intros (r & Hin & Hr). rewrite os_walk_walk_from in Hin.
    destruct (fs r) as [es0|] eqn:Hfs; [|by apply elem_of_nil in Hin].
    apply elem_of_walk_from in Hin as (d & es & Hdesc & ->).
    exists d, es. split; [|done]. by exists r, es0.
  - intros (d & es & (r & es0 & Hr & Hfs & Hdesc) & ->).
    exists r. split; [|done]. rewrite os_walk_walk_from, Hfs.
    by apply descends_walk_from.
Qed.

Lemma elem_of_walked_entries fs rs p name :
  (p, name) ∈ walked_entries fs rs ↔ walked fs rs p name.
Proof.
  unfold walked_entries. rewrite list_elem_of_bind. split.
  - intros (item & Hin & (d & es & Hv & ->)%elem_of_visited_items).
    simpl in Hin. apply elem_of_cons in Hin as [[= -> ->]|Hin].
    + by apply walked_dir with es.
    + apply list_elem_of_fmap in Hin as (f & [= -> ->] & Hf%elem_of_filenames_of).
      by apply walked_file with es.
  - intros [d es Hv|d es f Hv Hf];
      exists (d, dirnames_of es, filenames_of es);
      (split; [|apply elem_of_visited_items; by exists d, es]); simpl.
    + left.
    + right. apply list_elem_of_fmap. exists f.
      split; [done|by apply elem_of_filenames_of].
Qed.

(** *** The run on an interpreter whose walk recurses *)

Lemma until_abort_complete (ws : list (list walk_item * bool)) :
  Forall (λ w, w.2 = false) ws →
  until_abort ws = (mjoin (fst <$> ws), false).
Proof.
  induction 1 as [|[items raised] ws Hw _ IH]; [done|].
  simpl in Hw. subst raised. simpl. by rewrite IH.
Qed.

Lemma until_abort_prefix {X} (f : X → list walk_item * bool)
    (g : X → list walk_item) (xs : list X) :
  (∀ x, (f x).1 `prefix_of` g x) →
  (∀ x, (f x).2 = false → (f x).1 = g x) →
  (until_abort (f <$> xs)).1 `prefix_of` xs ≫= g
  ∧ ((until_abort (f <$> xs)).2 = false
     → (until_abort (f <$> xs)).1 = xs ≫= g).
Proof.
  intros Hpre Heq. induction xs as [|x xs [IH1 IH2]]; [done|].
  rewrite fmap_cons, bind_cons. simpl.
  destruct (f x) as [items raised] eqn:Hfx.
  specialize (Hpre x). specialize (Heq x). rewrite Hfx in Hpre, Heq.
  simpl in *. destruct raised.
  - split; [by apply prefix_app_r|done].
  - rewrite <-(Heq eq_refl).
    destruct (until_abort (f <$> xs)) as [items' raised']. simpl in *.
    split; [by apply prefix_app|]. intros Hr. by rewrite IH2.
Qed.

Lemma no_dirnames_no_walk top es :
  dirnames_of es = [] → es ≫= walk_entry top = [].
Proof.
  unfold dirnames_of. induction es as [|e es IH]; [done|].
  rewrite filter_cons, bind_cons.
  destruct e; simpl; [apply IH|done..].
Qed.

Lemma walk_within_prefix b top es :
  (walk_within b top es).1 `prefix_of` walk_from top es
  ∧ ((walk_within b top es).2 = false
     → (walk_within b top es).1 = walk_from top es).
Proof.
  revert top es. induction b as [|b IH]; intros top es.
  - simpl. unfold walk_from. split; [by apply prefix_cons, prefix_nil|].
    intros Hnil. f_equal. symmetry. apply no_dirnames_no_walk.
    by destruct (dirnames_of es).
  - cbn [walk_within]. unfold walk_from.
    set (f := λ e, match e with
                   | Dir n content => walk_within b (PosixPath.join top n) content
                   | File _ | DirLink _ | DirDenied _ => ([], false)
                   end).
    destruct (until_abort_prefix f (walk_entry top) es) as [Hpre Heq].
    + intros [n|n content|n|n]; simpl; try done. apply IH.
    + intros [n|n content|n|n]; simpl; try done. apply IH.
    + simpl. split; [by apply prefix_cons|]. intros Hr. f_equal. by apply Heq.
Qed.

Lemma os_walk_py_prefix py fs root :
  (os_walk_py py fs root).1 `prefix_of` os_walk fs root
  ∧ ((os_walk_py py fs root).2 = false
     → (os_walk_py py fs root).1 = os_walk fs root).
Proof.
  destruct py as [b|]; simpl; [|done].
  rewrite os_walk_walk_from. destruct (fs root) as [es|]; [|done].
  apply walk_within_prefix.
Qed.

Lemma py_items_prefix py fs rs :
  (py_items py fs rs).1 `prefix_of` visited_items fs rs
  ∧ ((py_items py fs rs).2 = false
     → (py_items py fs rs).1 = visited_items fs rs).
Proof.
  unfold py_items, visited_items.
  apply until_abort_prefix; intros root; apply os_walk_py_prefix.
Qed.

Lemma py_items_complete py fs rs :
  walks_complete py fs rs → py_items py fs rs = (visited_items fs rs, false).
Proof.
  intros Hrs. unfold py_items.
  assert ((until_abort (os_walk_py py fs <$> rs)).2 = false) as Hr.
  { rewrite until_abort_complete; [done|].
    by apply Forall_fmap. }
  destruct (py_items_prefix py fs rs) as [_ Heq]. unfold py_items in Heq.
  specialize (Heq Hr).
  destruct (until_abort (os_walk_py py fs <$> rs)) as [items raised].
  simpl in *. by subst.
Qed.

(** A listing nested at most [b] deep is walked to its end with [b]
    levels. *)
Lemma walk_within_nesting b top es :
  nesting es ≤ b → (walk_within b top es).2 = false.
Proof.
  revert top es. induction b as [|b IH]; intros top es Hes.
  - simpl. assert (dirnames_of es = []) as ->; [|done].
    unfold nesting, dirnames_of in *.
    induction es as [|e es IHes]; [done|].
    rewrite fmap_cons in Hes. simpl in Hes.
    rewrite filter_cons. destruct e; simpl in *; try lia.
    apply IHes. lia.
  - cbn [walk_within]. simpl. rewrite until_abort_complete; [done|].
    apply Forall_fmap, Forall_forall. intros e He.
    destruct e as [n|n content|n|n]; simpl; try done.
    apply IH. unfold nesting in *.
    assert (entry_levels (Dir n content) ≤ max_list (entry_levels <$> es)) as Hle.
    { apply max_list_elem_of_le, list_elem_of_fmap. by exists (Dir n content). }
    simpl in Hle. lia.
Qed.

Lemma walk_roots_items py fs self rs s :
  walk_roots py fs self rs s
  = match exec_steps (_stop_event self)
            ((py_items py fs rs).1 ≫= dir_steps (keyword self)) s with
    | Returned s' => Ret s'
    | Next _ s' => if (py_items py fs rs).2 then Exc s' else Fell s'
    end.
Proof.
  revert s. induction rs as [|root rs IH]; intros s; [done|].
  unfold py_items in *. rewrite fmap_cons. cbn [walk_roots until_abort].
  destruct (os_walk_py py fs root) as [items raised].
  rewrite (for_each_bind (dir_steps (keyword self)) _ (_stop_event self))
    by apply run_dir_steps.
  destruct raised.
  - simpl. by destruct (exec_steps _ _ s) as [[] s'|s'].
  - destruct (until_abort (os_walk_py py fs <$> rs)) as [items' raised'].
    simpl in *. rewrite bind_app, exec_steps_app.
    destruct (exec_steps _ (items ≫= _) s) as [[] s'|s']; [apply IH|done].
Qed.

(** How a run ends on the interpreter [py]: a call of [is_set()] returns
    true and the run returns; or none does, and the run either exhausts
    the roots and emits [finished], or is left by the exception of a
    walk, with no [finished]. *)
Lemma run_py_cases py fs self :
  let stop := _stop_event self in
  let l := (py_items py fs (roots self)).1 ≫= dir_steps (keyword self) in
  let raised := (py_items py fs (roots self)).2 in
  (run_py py fs self
     = (Frame (ticks l) (poll_count l)
          (quiet_history 0 l ++ (if raised then [] else [Emit finished])),
        raised)
   ∧ ∀ i, i < poll_count l → stop i = false)
  ∨ (∃ l1 l2, l = l1 ++ Poll :: l2
       ∧ run_py py fs self
           = (Frame (ticks l1) (S (poll_count l1))
                (quiet_history 0 l1 ++ [IsSet true; Emit finished]), false)
       ∧ stop (poll_count l1) = true
       ∧ ∀ i, i < poll_count l1 → stop i = false).
Proof.
  intros stop l raised. unfold run_py. rewrite walk_roots_items.
  fold l raised stop.
  pose proof (exec_steps_spec stop l (Frame 0 0 [])) as H.
  destruct (exec_steps stop l _) as [[] s'|s']; simpl in H.
  - left. destruct H as [-> H]. split; [|done].
    destruct raised; simpl; by rewrite ?app_nil_r.
  - right. destruct H as (l1 & l2 & ? & -> & ? & ?). by exists l1, l2.
Qed.

(** When no walk raises, the run is the run over walks that run to their
    end. *)
Lemma run_py_complete py fs self :
  walks_complete py fs (roots self) →
  run_py py fs self = (run_thread fs self, false).
Proof.
  intros Hrs. unfold run_py, run_thread.
  rewrite walk_roots_items, run_steps_correct, py_items_complete by done.
  unfold run_steps, visited_items. simpl.
  by destruct (exec_steps _ _ _) as [[] s'|s'].
Qed.

Lemma run_py_none fs self : run_py None fs self = (run_thread fs self, false).
Proof. apply run_py_complete. by apply Forall_forall. Qed.

(** The history of a run is events without [finished] and without a call of
    [is_set()] that returned true, then: nothing, when an exception leaves
    the run; [finished], when the roots are exhausted; the call of
    [is_set()] that returned true and [finished], when the run returns. *)
Lemma run_py_shape py fs self :
  ∃ pre (seen : bool),
    run_py_history py fs self
      = pre ++ (if seen then [IsSet true] else [])
            ++ (if (run_py py fs self).2 then [] else [Emit finished])
    ∧ (finished ∉ signals pre)
    ∧ (IsSet true ∉ pre)
    ∧ (seen = true → (run_py py fs self).2 = false).
Proof.
  unfold run_py_history.
  destruct (run_py_cases py fs self)
    as [[-> _]|(l1 & l2 & _ & -> & _ & _)]; simpl.
  - eexists _, false. split_and!; [done|..|done].
    + apply finished_not_in_quiet_history.
    + apply set_not_in_quiet_history.
  - exists (quiet_history 0 l1), true. split_and!; [done|..|done].
    + apply finished_not_in_quiet_history.
    + apply set_not_in_quiet_history.
Qed.

Lemma count_finished_run_py py fs self :
  count_finished (run_py_history py fs self)
  = if (run_py py fs self).2 then 0 else 1.
Proof.
  destruct (run_py_shape py fs self) as (pre & seen & -> & Hpre & _ & _).
  rewrite !count_finished_app, (count_finished_absent pre Hpre).
  by destruct seen, (run_py py fs self).2.
Qed.

Lemma signals_run_py py fs self :
  ∃ pre, signals (run_py_history py fs self)
           = pre ++ (if (run_py py fs self).2 then [] else [finished])
         ∧ finished ∉ pre.
Proof.
  destruct (run_py_shape py fs self) as (pre & seen & -> & Hpre & _ & _).
  exists (signals pre). rewrite !signals_app. split; [|done].
  by destruct seen, (run_py py fs self).2.
Qed.

(** *** A chain of directories deeper than the walk can descend *)

Lemma walk_within_nested b n top :
  b < n →
  (walk_within b top (nested n)).2 = true
  ∧ length (walk_within b top (nested n)).1 = S b
  ∧ (walk_within b top (nested n)).1 ≫= (λ item, item.2) = [].
Proof.
  revert n top. induction b as [|b IH]; intros [|n] top Hb; try lia.
  - done.
  - destruct (IH n (PosixPath.join top "d")) as (Hr & Hlen & Hfiles); [lia|].
    cbn [nested walk_within fmap list_fmap until_abort].
    destruct (walk_within b (PosixPath.join top "d") (nested n))
      as [items raised]. simpl in *. subst raised. simpl.
    split_and!; [done|by rewrite Hlen|done].
Qed.

Lemma py_items_deep_tree b n :
  b < n →
  (py_items (Some b) (deep_tree n) ["/deep"]).2 = true
  ∧ length (py_items (Some b) (deep_tree n) ["/deep"]).1 = S b
  ∧ (py_items (Some b) (deep_tree n) ["/deep"]).1 ≫= (λ item, item.2) = [].
Proof.
  intros Hb. unfold py_items, os_walk_py, deep_tree.
  rewrite fmap_cons, bool_decide_true by done. cbn [fmap list_fmap until_abort].
  destruct (walk_within_nested b n "/deep" Hb) as (Hr & Hlen & Hfiles).
  destruct (walk_within b "/deep" (nested n)) as [items raised].
  simpl in *. subst raised. by rewrite ?app_nil_r.
Qed.

(** On the chain, a run whose first [S b] calls of [is_set()] return false
    makes these calls and is then left by the exception of the walk. *)
Lemma run_py_deep_tree b n kw stop :
  b < n → (∀ i, i < S b → stop i = false) →
  let r := run_py (Some b) (deep_tree n) (SearchWorker_init ["/deep"] kw stop) in
  r.2 = true ∧ polls r.1 = S b ∧ total r.1 = S b
  ∧ (IsSet true ∉ history r.1) ∧ (finished ∉ signals (history r.1)).
Proof.
  intros Hb Hstop r. subst r.
  destruct (py_items_deep_tree b n Hb) as (Hr & Hlen & Hfiles).
  pose proof (poll_count_items (Str.lower kw)
                (py_items (Some b) (deep_tree n) ["/deep"]).1) as Hpolls.
  pose proof (ticks_items (Str.lower kw)
                (py_items (Some b) (deep_tree n) ["/deep"]).1) as Hticks.
  rewrite Hlen, Hfiles in Hpolls. rewrite Hlen in Hticks.
  destruct (run_py_cases (Some b) (deep_tree n)
              (SearchWorker_init ["/deep"] kw stop))
    as [[-> _]|(l1 & l2 & Hl & _ & Hset & _)]; simpl in *.
  - rewrite Hr, app_nil_r. split_and!; [done|lia|lia|..].
    + apply set_not_in_quiet_history.
    + apply finished_not_in_quiet_history.
  - rewrite Hl, poll_count_app, poll_count_cons in Hpolls.
    rewrite Hstop in Hset; [done|lia].
Qed.

Lemma run_py_never_set py fs rs kw :
  let l := (py_items py fs rs).1 ≫= dir_steps (Str.lower kw) in
  let raised := (py_items py fs rs).2 in
  run_py py fs (SearchWorker_init rs kw never_set)
  = (Frame (ticks l) (poll_count l)
       (quiet_history 0 l ++ (if raised then [] else [Emit finished])),
     raised).
Proof.
  intros l raised.
  destruct (run_py_cases py fs (SearchWorker_init rs kw never_set))
    as [[H _]|(l1 & l2 & _ & _ & H & _)]; [done|discriminate].
Qed.

(** C3. On a chain of directories nested deeper than the recursive walk
    can descend, the run that is not cancelled is left by the exception of
    the walk: it emits no [finished] at all. With the iterative walk the
    same run emits [finished] once. *)
Theorem run_py_deep_tree_no_finished (n b : nat) :
  b < n →
  let self := SearchWorker_init ["/deep"] "x" never_set in
  (run_py (Some b) (deep_tree n) self).2 = true
  ∧ (finished ∉ signals (run_py_history (Some b) (deep_tree n) self))
  ∧ count_finished (run_py_history (Some b) (deep_tree n) self) = 0
  ∧ count_finished (run_py_history None (deep_tree n) self) = 1.
Proof.
  intros Hb self.
  destruct (run_py_deep_tree b n "x" never_set Hb) as (Hr & _ & _ & _ & Hfin);
    [done|].
  split_and!; [done|done|by apply count_finished_absent|].
  by rewrite count_finished_run_py, run_py_none.
Qed.

Lemma run_py_deep_tree_no_finished_witness :
  count_finished
    (run_py_history (Some 990) (deep_tree 1100)
       (SearchWorker_init ["/deep"] "x" never_set)) = 0.
Proof.
  apply (run_py_deep_tree_no_finished 1100 990). lia.
Defined.

(** C2. On the same chain, when the stop event is set after the last call
    of [is_set()] that the run makes and before the walk raises, the flag
    is set during the run and the run emits no [finished]: no call of
    [is_set()] sees the flag, and the exception leaves the run. *)
Theorem run_py_deep_tree_stop_unseen (n b : nat) :
  b < n →
  let stop := stop_after (S b) in
  let r := run_py (Some b) (deep_tree n)
             (SearchWorker_init ["/deep"] "x" stop) in
  (∀ k, S b ≤ k → stop k = true)
  ∧ polls r.1 = S b
  ∧ r.2 = true
  ∧ (IsSet true ∉ history r.1)
  ∧ count_finished (history r.1) = 0.
Proof.
  intros Hb stop r.
  destruct (run_py_deep_tree b n "x" stop Hb) as (Hr & Hp & _ & Hset & Hfin).
  { intros i Hi. unfold stop, stop_after. apply bool_decide_false. lia. }
  split_and!; [|done..|by apply count_finished_absent].
  intros k Hk. by apply bool_decide_true.
Qed.

Lemma run_py_deep_tree_stop_unseen_witness :
  count_finished
    (history (run_py (Some 990) (deep_tree 1100)
                (SearchWorker_init ["/deep"] "x" (stop_after 991))).1) = 0.
Proof.
  apply (run_py_deep_tree_stop_unseen 1100 990). lia.
Defined.

(** X23. A run that no exception leaves, whether it exhausts the roots or
    returns because the stop event is set, emits [finished] exactly once,
    as its last signal; a run that the exception of a walk leaves emits no
    [finished]. No exception leaves the run when every walk runs to its
    end, nor once a call of [is_set()] has returned true. *)
Theorem run_py_finished_unless_raised (py : recursion_budget)
    (fs : filesystem) (self : SearchWorker) :
  let raised := (run_py py fs self).2 in
  let h := run_py_history py fs self in
  (raised = false →
   count_finished h = 1 ∧ last (signals h) = Some finished)
  ∧ (raised = true → finished ∉ signals h)
  ∧ (walks_complete py fs (roots self) → raised = false)
  ∧ (IsSet true ∈ h → raised = false).
Proof.
  intros raised h. subst raised h. split_and!.
  - intros Hr. rewrite count_finished_run_py, Hr. split; [done|].
    destruct (signals_run_py py fs self) as (pre & -> & _).
    by rewrite Hr, last_app.
  - intros Hr. destruct (signals_run_py py fs self) as (pre & -> & Hpre).
    by rewrite Hr, app_nil_r.
  - intros Hrs. by rewrite run_py_complete.
  - destruct (run_py_shape py fs self) as (pre & seen & -> & _ & Hpre & Hseen).
    destruct seen; [auto|]. intros Hin. exfalso.
    rewrite app_nil_l in Hin. apply elem_of_app in Hin as [Hin|Hin]; [done|].
    destruct (run_py py fs self).2; [by apply elem_of_nil in Hin|].
    by apply list_elem_of_singleton in Hin.
Qed.

Lemma run_py_finished_unless_raised_witness :
  count_finished
    (run_py_history (Some 1) testroot_fs
       (SearchWorker_init ["/tmp/testroot"] "foo" (λ n, bool_decide (n = 2))))
  = 1
  ∧ last (signals
            (run_py_history (Some 1) testroot_fs
               (SearchWorker_init ["/tmp/testroot"] "foo"
                  (λ n, bool_decide (n = 2)))))
    = Some finished.
Proof.
  apply (run_py_finished_unless_raised (Some 1) testroot_fs
           (SearchWorker_init ["/tmp/testroot"] "foo" (λ n, bool_decide (n = 2)))).
  reflexivity.
Defined.

(** X24. Whatever the stop event does during a run: once a call of
    [is_set()] has returned true, the only event that follows is the
    emission of [finished], which the run then emits exactly once; the
    signals emitted before [finished] are the first signals of the run
    that is not cancelled, in the same order; in the run that is not
    cancelled [is_set()] is called once for each directory that the walks
    yield and once for each of their files; and a flag that is set at one
    of these calls is seen by the run. *)
Theorem run_py_cancelled (py : recursion_budget) (fs : filesystem)
    (rs : list string) (kw : string) (stop : stop_event) :
  let r := run_py py fs (SearchWorker_init rs kw stop) in
  let h := history r.1 in
  let quiet := (run_py py fs (SearchWorker_init rs kw never_set)).1 in
  let items := (py_items py fs rs).1 in
  (∀ h1 h2, h = h1 ++ IsSet true :: h2 → h2 = [Emit finished])
  ∧ (IsSet true ∈ h → count_finished h = 1)
  ∧ (∃ pre, signals h = pre ++ (if r.2 then [] else [finished])
       ∧ pre `prefix_of` signals (history quiet))
  ∧ polls quiet = length items + length (items ≫= λ item, item.2)
  ∧ (∀ n, n < polls quiet → stop n = true → IsSet true ∈ h).
Proof.
  intros r h quiet items. subst r h quiet items.
  rewrite run_py_never_set. simpl.
  set (l := (py_items py fs rs).1 ≫= dir_steps (Str.lower kw)).
  set (raised := (py_items py fs rs).2).
  destruct (run_py_cases py fs (SearchWorker_init rs kw stop))
    as [[Hrun Hfalse]|(l1 & l2 & Hl & Hrun & _ & _)];
    simpl in Hrun; try simpl in Hfalse; try simpl in Hl;
    fold l raised in Hrun; try fold l in Hfalse; try fold l in Hl;
    rewrite Hrun; simpl; split_and!.
  - intros h1 h2 Hh. exfalso.
    assert (IsSet true ∈ quiet_history 0 l
              ++ (if raised then [] else [Emit finished])) as Hin
      by (rewrite Hh, elem_of_app; right; left).
    apply elem_of_app in Hin as [Hin|Hin].
    + by apply set_not_in_quiet_history in Hin.
    + destruct raised; [by apply elem_of_nil in Hin|].
      by apply list_elem_of_singleton in Hin.
  - intros Hin. exfalso. apply elem_of_app in Hin as [Hin|Hin].
    + by apply set_not_in_quiet_history in Hin.
    + destruct raised; [by apply elem_of_nil in Hin|].
      by apply list_elem_of_singleton in Hin.
  - exists (signals (quiet_history 0 l)). rewrite !signals_app. split.
    + by destruct raised.
    + by apply prefix_app_r.
  - apply poll_count_items.
  - intros n Hn Hset. by rewrite Hfalse in Hset.
  - intros h1 h2 Hh.
    apply app_pivot_unique in Hh as [_ <-]; [done|..].
    + apply set_not_in_quiet_history.
    + by intros [=]%list_elem_of_singleton.
  - intros _. rewrite count_finished_app.
    by rewrite (count_finished_absent _ (finished_not_in_quiet_history 0 l1)).
  - exists (signals (quiet_history 0 l1)). rewrite !signals_app.
    split; [done|]. rewrite Hl, quiet_history_app, !signals_app, <-app_assoc.
    by apply prefix_app_r.
  - apply poll_count_items.
  - intros n _ _. rewrite elem_of_app. right. left.
Qed.

Lemma run_py_cancelled_witness :
  let h := run_py_history (Some 1) testroot_fs
             (SearchWorker_init ["/tmp/testroot"] "foo"
                (λ n, bool_decide (n = 2))) in
  drop 4 h = [Emit finished].
Proof.
  intros h.
  apply (proj1 (run_py_cancelled (Some 1) testroot_fs ["/tmp/testroot"] "foo"
                  (λ n, bool_decide (n = 2)))
           (take 3 h) (drop 4 h)).
  by vm_compute.
Defined.

(** X25. The recursive walk yields the first directories that the walk run
    to its end yields, in the same order, and all of them when it does not
    raise. It does not raise under a root whose tree is nested no deeper
    than it can descend, nor does the iterative walk. *)
Theorem os_walk_py_within_budget (py : recursion_budget) (fs : filesystem)
    (root : string) :
  (os_walk_py py fs root).1 `prefix_of` os_walk fs root
  ∧ ((os_walk_py py fs root).2 = false →
     (os_walk_py py fs root).1 = os_walk fs root)
  ∧ (∀ b es, py = Some b → fs root = Some es → nesting es ≤ b →
       (os_walk_py py fs root).2 = false)
  ∧ (py = None ∨ fs root = None → (os_walk_py py fs root).2 = false).
Proof.
  destruct (os_walk_py_prefix py fs root) as [Hpre Heq].
  split_and!; [done|done|..].
  - intros b es -> Hes Hb. simpl. rewrite Hes. by apply walk_within_nesting.
  - intros [->| Hroot]; [done|]. destruct py as [b|]; [|done].
    simpl. by rewrite Hroot.
Qed.

Lemma os_walk_py_within_budget_witness :
  (os_walk_py (Some 1) testroot_fs "/tmp/testroot").1
  = os_walk testroot_fs "/tmp/testroot".
Proof.
  apply (os_walk_py_within_budget (Some 1) testroot_fs "/tmp/testroot").
  apply (proj1 (proj2 (proj2
           (os_walk_py_within_budget (Some 1) testroot_fs "/tmp/testroot")))
           1 [Dir "Foo" [File "bar.txt"]; Dir "baz" [File "FooBar.log"]]);
    [reflexivity|reflexivity|]. vm_compute. lia.
Defined.

(** X26. When no walk raises, and always with the iterative walk, the run
    is the run over the walks run to their end: same counter, same calls
    of [is_set()], same events, and no exception. *)
Theorem run_py_walks_complete (py : recursion_budget) (fs : filesystem)
    (self : SearchWorker) :
  (walks_complete py fs (roots self) →
   run_py py fs self = (run_thread fs self, false))
  ∧ run_py None fs self = (run_thread fs self, false).
Proof. split; [apply run_py_complete|apply run_py_none]. Qed.

Lemma run_py_walks_complete_witness :
  run_py (Some 1) testroot_fs
    (SearchWorker_init ["/tmp/testroot"] "foo" never_set)
  = (run_thread testroot_fs
       (SearchWorker_init ["/tmp/testroot"] "foo" never_set), false).
Proof.
  apply (proj1 (run_py_walks_complete (Some 1) testroot_fs
                  (SearchWorker_init ["/tmp/testroot"] "foo" never_set))).
  by apply (bool_decide_unpack _).
Defined.

(** *** The matches of a run *)

Lemma found_paths_quiet_history t l :
  found_paths (quiet_history t l) = step_paths l.
Proof.
  revert t. induction l as [|[|p|] l IH]; intros t; simpl; rewrite ?IH; try done.
  rewrite found_paths_app, IH. unfold progress_after.
  by destruct (_ =? 0).
Qed.

Lemma step_paths_app l1 l2 : step_paths (l1 ++ l2) = step_paths l1 ++ step_paths l2.
Proof. apply omap_app. Qed.

Lemma filter_name_matches_cons kw p n l :
  filter (name_matches kw) ((p, n) :: l)
  = if Str.contains (Str.lower kw) (Str.lower n)
    then (p, n) :: filter (name_matches kw) l
    else filter (name_matches kw) l.
Proof.
  rewrite filter_cons.
  destruct (decide _) as [H|H]; unfold name_matches in H; simpl in H.
  - by rewrite H.
  - apply not_true_is_false in H. by rewrite H.
Qed.

Lemma step_paths_dir_steps kw item :
  step_paths (dir_steps (Str.lower kw) item)
  = (filter (name_matches kw) (item_entries item)).*1.
Proof.
  destruct item as [[d dn] fn]. unfold dir_steps, item_entries.
  assert (step_paths ((fn ≫= file_steps (Str.lower kw) d) ++ [Tick])
          = (filter (name_matches kw)
               ((λ fname, (PosixPath.join d fname, fname)) <$> fn)).*1) as Hfiles.
  { induction fn as [|f fn IH]; [done|].
    rewrite bind_cons, <-app_assoc, step_paths_app, IH, fmap_cons.
    rewrite filter_name_matches_cons. unfold file_steps.
    by destruct (Str.contains _ _). }
  rewrite filter_name_matches_cons.
  destruct (Str.contains _ _); simpl; by rewrite Hfiles.
Qed.

Lemma step_paths_items kw (items : list walk_item) :
  step_paths (items ≫= dir_steps (Str.lower kw))
  = (filter (name_matches kw) (items ≫= item_entries)).*1.
Proof.
  induction items as [|item items IH]; [done|].
  rewrite !bind_cons, step_paths_app, filter_app, fmap_app.
  by rewrite step_paths_dir_steps, IH.
Qed.

Lemma found_paths_never_set fs rs kw :
  found_paths (run_history fs (SearchWorker_init rs kw never_set))
  = (filter (name_matches kw) (walked_entries fs rs)).*1.
Proof.
  unfold run_history. rewrite run_thread_never_set, run_steps_init.
  simpl history. rewrite found_paths_app, found_paths_quiet_history.
  simpl. rewrite app_nil_r. apply step_paths_items.
Qed.

(** The example of the specification: under [/tmp/testroot], which holds
    [Foo/bar.txt] and [baz/FooBar.log], the keyword [foo] gives the
    directory [Foo] and the file [baz/FooBar.log], and not [baz]. *)
Example run_testroot :
  found_paths (run_history testroot_fs
                 (SearchWorker_init ["/tmp/testroot"] "foo" never_set))
  = ["/tmp/testroot/Foo"; "/tmp/testroot/baz/FooBar.log"].
Proof. by vm_compute. Qed.

(** The keyword is no pattern: [*] matches only a name that holds a star. *)
Example run_star_is_literal :
  found_paths (run_history testroot_fs
                 (SearchWorker_init ["/tmp/testroot"] "*" never_set)) = [].
Proof. by vm_compute. Qed.

(** A cancelled run: the third call of [is_set()] returns true. *)
Example run_testroot_cancelled :
  run_history testroot_fs
    (SearchWorker_init ["/tmp/testroot"] "foo" (λ n, bool_decide (n = 2)))
  = [IsSet false; IsSet false; Emit (found "/tmp/testroot/Foo");
     IsSet true; Emit finished].
Proof. by vm_compute. Qed.

(** A directory behind a link, or one that cannot be listed, is never
    handed to the worker: its name may hold the keyword, its path is not
    emitted. *)
Lemma run_skips_unvisited_directories :
  let ps := found_paths (run_history home_fs
                           (SearchWorker_init ["/home/u"] "foo" never_set)) in
  ps = ["/home/u/foo.txt"; "/home/u/docs/Foo.pdf"]
  ∧ listed home_fs ["/home/u"] "/home/u/foolink" "foolink"
  ∧ listed home_fs ["/home/u"] "/home/u/food" "food"
  ∧ contains_ignoring_case "foolink" "foo"
  ∧ contains_ignoring_case "food" "foo".
Proof.
  assert (visited home_fs ["/home/u"] "/home/u"
            [File "foo.txt"; DirLink "foolink"; DirDenied "food";
             Dir "docs" [File "Foo.pdf"; File "notes"]]) as Hv.
  { exists "/home/u". eexists. split_and!; [set_solver|done|constructor]. }
  split_and!.
  - by vm_compute.
  - apply (listed_entry _ _ _ _ (DirLink "foolink") Hv). set_solver.
  - apply (listed_entry _ _ _ _ (DirDenied "food") Hv). set_solver.
  - by exists "", "foo", "link".
  - by exists "", "foo", "d".
Qed.

(** C1, as stated, fails: a folder added twice to the roots is walked
    twice, and each of its matches is emitted twice. *)
Lemma run_repeated_root_emits_twice :
  ¬ emits_each_match_once home_fs ["/home/u"; "/home/u"] "foo".
Proof.
  intros [Hnd _]. vm_compute in Hnd.
  apply NoDup_cons in Hnd as [Hnotin _]. apply Hnotin. set_solver.
Qed.

(** C1, amended. When no walk is left by an exception, the run that is not
    cancelled emits, in the order of the walk, the path of each directory
    that a walk visits and of each entry of such a directory that is not a
    directory, when the keyword in lower case is a substring of its name in
    lower case (the base name, for a directory); it emits nothing else. A
    path is emitted once for each time a walk comes to it: exactly once
    when no path is walked twice. The match is the containment of a
    substring, and the proof uses nothing of what [Str.lower] does to
    the characters. *)
Theorem run_py_emits_walked_matches (py : recursion_budget)
    (fs : filesystem) (rs : list string) (kw : string) :
  walks_complete py fs rs →
  let r := run_py py fs (SearchWorker_init rs kw never_set) in
  let ps := found_paths (history r.1) in
  r.2 = false
  ∧ ps = (filter (name_matches kw) (walked_entries fs rs)).*1
  ∧ (∀ p, p ∈ ps ↔ ∃ name, walked fs rs p name ∧ lowered_contains name kw)
  ∧ (NoDup (walked_entries fs rs).*1 → NoDup ps).
Proof.
  intros Hrs r ps. subst r ps.
  rewrite (run_py_complete py fs (SearchWorker_init rs kw never_set)) by done.
  cbn [fst snd]. fold (run_history fs (SearchWorker_init rs kw never_set)).
  rewrite found_paths_never_set. split_and!; [done|done|..].
  - intros p. rewrite list_elem_of_fmap. unfold lowered_contains. split.
    + intros ([p' name] & -> & [Hm Hin]%list_elem_of_filter).
      exists name. split; [by apply elem_of_walked_entries|].
      by apply contains_spec.
    + intros (name & Hw%elem_of_walked_entries & Hc%contains_spec).
      exists (p, name). split; [done|]. by apply list_elem_of_filter.
  - intros Hnd. apply (sublist_NoDup _ _ Hnd), fmap_sublist, sublist_filter.
Qed.

Lemma run_py_emits_walked_matches_witness :
  found_paths (history (run_py (Some 1) home_fs
                          (SearchWorker_init ["/home/u"] "foo" never_set)).1)
  = (filter (name_matches "foo") (walked_entries home_fs ["/home/u"])).*1.
Proof.
  apply (run_py_emits_walked_matches (Some 1) home_fs ["/home/u"] "foo").
  by apply (bool_decide_unpack _).
Defined.

(** ** The main window *)

Lemma lstrip_blank s : blank s → Str.lstrip s = "".
Proof.
  induction s as [|c s IH]; [done|]. intros [Hc Hs]. simpl. rewrite Hc. auto.
Qed.

Lemma strip_blank s : blank s → Str.strip s = "".
Proof. intros Hs. unfold Str.strip. by rewrite (lstrip_blank s). Qed.

(** C5. When the text of the keyword field is empty or holds only white
    space, [start_search] changes the status label and nothing else: the
    list of results and the threads are as they were, so no worker starts;
    and so it is for a click on the search button and for the return key. *)
Theorem start_search_blank_keyword (mtab : proc_mounts) (w : MainWindow) :
  blank (search_input w) →
  start_search mtab w = set_status w status_enter_keyword
  ∧ result_list (start_search mtab w) = result_list w
  ∧ threads (start_search mtab w) = threads w
  ∧ handle mtab w return_pressed = set_status w status_enter_keyword
  ∧ active_workers (handle mtab w search_clicked) = active_workers w
  ∧ result_list (handle mtab w search_clicked) = result_list w.
Proof.
  intros Hblank%strip_blank.
  assert (start_search mtab w = set_status w status_enter_keyword) as Hs.
  { unfold start_search. by rewrite Hblank. }
  unfold handle. rewrite Hs. split_and!; try done.
  all: by destruct (search_button_enabled w).
Qed.

Lemma start_search_blank_keyword_witness :
  let w := set_text "  " (on_found "/old/result" MainWindow_init) in
  result_list (start_search (Lines []) w) = ["/old/result"].
Proof.
  intros w.
  by rewrite (proj1 (proj2 (start_search_blank_keyword (Lines []) w
                              (conj eq_refl (conj eq_refl I))))).
Defined.

(** *** One worker at a time *)

Lemma count_running_app ts1 ts2 :
  count_running (ts1 ++ ts2) = count_running ts1 + count_running ts2.
Proof. unfold count_running. by rewrite filter_app, length_app. Qed.

Lemma count_running_exit ts i t :
  ts !! i = Some t → is_running t = true →
  S (count_running
       (alter (λ t, Thread (thread_roots t) (thread_keyword t) false) i ts))
  = count_running ts.
Proof.
  revert i. induction ts as [|t' ts IH]; intros [|i] Hi Hrun; simplify_eq/=.
  - unfold count_running. rewrite !filter_cons. simpl.
    rewrite Hrun. by repeat case_decide.
  - specialize (IH i Hi Hrun).
    unfold count_running in *. rewrite !filter_cons.
    case_decide; simpl; lia.
Qed.

Lemma handle_one_worker mtab w e :
  e ≠ return_pressed → one_worker w → one_worker (handle mtab w e).
Proof.
  intros He Hw. pose proof Hw as [Hle Hidle].
  unfold active_workers in Hle, Hidle.
  destruct e; simpl; try done.
  - (* search_clicked *)
    destruct (search_button_enabled w) eqn:Hbtn; [|done].
    unfold start_search. case_bool_decide; [done|].
    unfold one_worker, active_workers. simpl.
    rewrite count_running_app, (Hidle eq_refl). by split.
  - (* stop_clicked *)
    destruct (stop_button_enabled w); [|done]. unfold stop_search.
    destruct (last (threads w)) as [t|]; [|done]. by destruct (is_running t).
  - (* folder_chosen *)
    unfold add_custom_folder. by case_bool_decide.
  - (* worker_found *)
    by destruct (thread_running w i).
  - (* worker_progress *)
    by destruct (thread_running w i).
  - (* worker_finished *)
    unfold thread_running. destruct (threads w !! i) as [t|] eqn:Hi; [|done].
    destruct (is_running t) eqn:Hrun; [|done].
    unfold one_worker, active_workers. simpl.
    pose proof (count_running_exit _ _ _ Hi Hrun) as Hexit.
    split; [lia|]. intros _. lia.
Qed.

(** The search button, which [start_search] disables and [on_finished]
    enables, keeps the workers to one at a time: without the return key,
    no sequence of events has two workers running. *)
Lemma buttons_keep_one_worker mtab es :
  return_pressed ∉ es → active_workers (handle_all mtab es) ≤ 1.
Proof.
  intros Hes. unfold handle_all.
  assert (one_worker MainWindow_init) as Hinit
    by (split; [unfold active_workers, count_running; simpl; lia|done]).
  revert Hinit. generalize MainWindow_init as w.
  induction es as [|e es IH]; intros w Hw; [apply Hw|].
  apply not_elem_of_cons in Hes as [He Hes]. simpl.
  apply IH; [done|]. by apply handle_one_worker.
Qed.

(** C4, where the code fails it. The return key of the keyword field is
    connected to [start_search] and is never disabled: pressed while a
    worker runs, it starts a second one without stopping the first. *)
Theorem return_key_starts_second_worker (mtab : proc_mounts) :
  active_workers
    (handle_all mtab [text_edited "a"; return_pressed; return_pressed]) = 2.
Proof. reflexivity. Qed.

(** ** The terminal launcher *)

(** With [konsole], the folder is an argument of its own. *)
Lemma open_terminal_at_konsole which folder :
  which "konsole" = true →
  launched_workdir (open_terminal_at which folder) = Some folder.
Proof.
  intros Hk. unfold open_terminal_at, candidates.
  rewrite filter_cons. case_decide; [|done]. done.
Qed.

(** With [bash -c], a space in the folder is kept by the quotes. *)
Example open_terminal_at_bash_c_space :
  launched_workdir (open_terminal_at (only "gnome-terminal") "/tmp/my folder")
  = Some "/tmp/my folder".
Proof. by vm_compute. Qed.

(** C6, where the code fails it. After [-e], the quotes put around the
    folder close the quote opened before [cd], so a space in the folder is
    outside any quote: for [/tmp/my folder] the script given to [bash -lc]
    is [cd /tmp/my]. With [bash -c], a double quote in the folder closes
    the quote of the script, which is left with an open quote. *)
Theorem open_terminal_at_breaks_quoting :
  open_terminal_at (only "xterm") "/tmp/my folder"
  = Popen ["xterm"; "-e";
           "bash -lc " +:+ dquote +:+ "cd " +:+ dquote +:+ "/tmp/my folder"
             +:+ dquote +:+ "; exec bash" +:+ dquote]
  ∧ launched_workdir (open_terminal_at (only "xterm") "/tmp/my folder")
    = Some "/tmp/my"
  ∧ launched_workdir
      (open_terminal_at (only "gnome-terminal") ("/tmp/a" +:+ dquote +:+ "b"))
    = None.
Proof. by vm_compute. Qed.

(** ** More on the traversal worker *)




Lemma visited_items_listable fs rs :
  visited_items fs (filter (λ r, is_Some (fs r)) rs) = visited_items fs rs.
Proof.
  unfold visited_items. induction rs as [|r rs IH]; [done|].
  rewrite filter_cons, bind_cons. case_decide as Hr.
  - by rewrite bind_cons, IH.
  - rewrite IH. unfold os_walk at 2.
    destruct (fs r); [|done]. exfalso. by apply Hr.
Qed.

Lemma run_thread_steps fs self self' :
  _stop_event self = _stop_event self' →
  run_steps fs self = run_steps fs self' →
  run_thread fs self = run_thread fs self'.
Proof.
  intros Hstop Hsteps. unfold run_thread.
  by rewrite !run_steps_correct, Hstop, Hsteps.
Qed.

(** X2. A root that cannot be listed (it does not exist, it is no
    directory, the permission is denied) is passed over: the run, whatever
    the stop event does, is the run over the roots that can be listed. *)
Theorem run_skips_unlistable_roots (fs : filesystem) (rs : list string)
    (kw : string) (stop : stop_event) :
  run_thread fs (SearchWorker_init rs kw stop)
  = run_thread fs
      (SearchWorker_init (filter (λ r, is_Some (fs r)) rs) kw stop).
Proof.
  apply run_thread_steps; [done|].
  by rewrite !run_steps_init, visited_items_listable.
Qed.


(** X4. When the stop event is already set at the first call of
    [is_set()], the run emits no match: it is that call and [finished],
    or [finished] alone when no root can be listed. *)
Theorem run_stop_set_before_start (fs : filesystem) (rs : list string)
    (kw : string) (stop : stop_event) :
  stop 0 = true →
  run_history fs (SearchWorker_init rs kw stop)
  = if visited_items fs rs is [] then [Emit finished]
    else [IsSet true; Emit finished].
Proof.
  intros Hstop. unfold run_history, run_thread.
  rewrite run_steps_correct, run_steps_init.
  destruct (visited_items fs rs) as [|[[d dn] fn] items]; [done|].
  rewrite bind_cons. unfold dir_steps at 1.
  rewrite <-app_comm_cons. unfold exec_steps. rewrite for_each_cons.
  unfold exec_step. rewrite bind_unfold. unfold is_set. simpl _stop_event.
  simpl polls. by rewrite Hstop.
Qed.

Lemma run_stop_set_before_start_witness :
  run_history testroot_fs
    (SearchWorker_init ["/tmp/testroot"] "foo" (λ _, true))
  = [IsSet true; Emit finished].
Proof.
  by apply (run_stop_set_before_start testroot_fs ["/tmp/testroot"] "foo"
              (λ _, true)).
Defined.

(** *** Where the matches lie *)

Lemma begins_with_refl s : begins_with s s.
Proof. exists "". by rewrite append_nil_r. Qed.

Lemma begins_with_trans s p r :
  begins_with s p → begins_with p r → begins_with s r.
Proof. intros [x ->] [y ->]. exists (y +:+ x). by rewrite append_assoc. Qed.

Lemma no_slash_startswith n : no_slash n → Str.startswith n "/" = false.
Proof.
  destruct n as [|c n]; [done|]. intros [Hc _].
  cbn [Str.startswith]. by destruct (decide _) as [<-|].
Qed.

Lemma join_begins d n : no_slash n → begins_with (PosixPath.join d n) d.
Proof.
  intros Hn. unfold PosixPath.join. rewrite no_slash_startswith by done.
  destruct (_ || _); [by exists n|]. by exists ("/" +:+ n).
Qed.

Lemma descends_begins top es0 d es :
  descends top es0 d es → Forall plain_entry es0 →
  begins_with d top ∧ Forall plain_entry es.
Proof.
  induction 1 as [top es0|top es0 n content d es Hin _ IH]; intros Hplain.
  - split; [apply begins_with_refl|done].
  - rewrite Forall_forall in Hplain. specialize (Hplain _ Hin).
    inversion Hplain as [|? ? Hn Hc| |]; subst.
    destruct (IH Hc) as [Hd Hes]. split; [|done].
    eapply begins_with_trans; [done|]. by apply join_begins.
Qed.

Lemma found_paths_any_never fs rs kw stop p :
  p ∈ found_paths (run_history fs (SearchWorker_init rs kw stop)) →
  p ∈ found_paths (run_history fs (SearchWorker_init rs kw never_set)).
Proof.
  unfold run_history. rewrite run_thread_never_set. simpl history.
  destruct (run_thread_cases fs (SearchWorker_init rs kw stop))
    as [[-> _]|(l1 & l2 & Hl & -> & _ & _)]; simpl history.
  - by rewrite !run_steps_init.
  - rewrite !run_steps_init in *. rewrite Hl.
    rewrite !found_paths_app, !found_paths_quiet_history, step_paths_app.
    simpl. rewrite !app_nil_r, !elem_of_app. auto.
Qed.

(** X5. When the names of the entries hold no separator, every path that
    a run emits, cancelled or not, begins with one of the roots as it was
    given to the worker. *)
Theorem run_found_under_roots (fs : filesystem) (rs : list string)
    (kw : string) (stop : stop_event) (p : string) :
  plain_fs fs →
  p ∈ found_paths (run_history fs (SearchWorker_init rs kw stop)) →
  ∃ r, r ∈ rs ∧ begins_with p r.
Proof.
  intros Hfs Hp%found_paths_any_never.
  rewrite found_paths_never_set in Hp.
  apply list_elem_of_fmap in Hp as ([p' name] & -> & [_ Hin]%list_elem_of_filter).
  apply elem_of_walked_entries in Hin. simpl.
  destruct Hin as [d es (r & es0 & Hr & Hfsr & Hdesc)
                  |d es f (r & es0 & Hr & Hfsr & Hdesc) Hf];
    exists r; (split; [done|]);
    destruct (descends_begins _ _ _ _ Hdesc (Hfs _ _ Hfsr)) as [Hd Hes].
  - done.
  - rewrite Forall_forall in Hes. specialize (Hes _ Hf).
    inversion Hes; subst.
    eapply begins_with_trans; [|done]. by apply join_begins.
Qed.

Lemma testroot_fs_plain : plain_fs testroot_fs.
Proof.
  intros r es. unfold testroot_fs. case_bool_decide; [|done].
  intros [= <-]. repeat (constructor; simpl; try done).
Qed.

Lemma run_found_under_roots_witness :
  ∃ r, r ∈ ["/tmp/testroot"] ∧ begins_with "/tmp/testroot/Foo" r.
Proof.
  apply (run_found_under_roots testroot_fs ["/tmp/testroot"] "foo" never_set
           "/tmp/testroot/Foo" testroot_fs_plain).
  apply (bool_decide_unpack _). by vm_compute.
Defined.

(** *** Every match follows a call of [is_set()] *)

Lemma well_polled_app h1 h2 :
  well_polled h1 → well_polled h2 → well_polled (h1 ++ h2).
Proof. intros H1 H2. induction H1; simpl; [done|by constructor..]. Qed.

Lemma well_polled_file_events kw d (fn : list string) :
  well_polled (fn ≫= file_events kw d).
Proof.
  induction fn as [|f fn IH]; [constructor|].
  rewrite bind_cons. apply well_polled_app; [|done].
  unfold file_events.
  destruct (Str.contains _ _);
    [apply well_polled_match|apply well_polled_poll]; constructor.
Qed.

Lemma well_polled_dir_events kw item : well_polled (dir_events kw item).
Proof.
  destruct item as [[d dn] fn]. unfold dir_events.
  destruct (Str.contains _ _); simpl;
    [apply well_polled_match|apply well_polled_poll];
    apply well_polled_file_events.
Qed.

Lemma well_polled_progress_after n : well_polled (progress_after n).
Proof. unfold progress_after. destruct (_ =? 0); repeat constructor. Qed.

Lemma well_polled_quiet_items kw t (items : list walk_item) :
  well_polled (quiet_history t (items ≫= dir_steps kw)).
Proof.
  revert t. induction items as [|item items IH]; intros t; [constructor|].
  rewrite bind_cons, quiet_history_app, quiet_history_dir_steps.
  repeat apply well_polled_app; [..|apply IH].
  - apply well_polled_dir_events.
  - apply well_polled_progress_after.
Qed.

(** What comes before a call of [is_set()] in such a history is such a
    history. *)
Lemma well_polled_before_poll h h1 b h2 :
  well_polled h → h = h1 ++ IsSet b :: h2 → well_polled h1.
Proof.
  intros Hh. revert h1.
  induction Hh as [|b' h _ IH|p h _ IH|n h _ IH|h _ IH]; intros h1 Heq.
  - by destruct h1.
  - destruct h1 as [|e h1]; [constructor|]. simplify_eq/=.
    constructor. by apply IH.
  - destruct h1 as [|e [|e' h1]].
    + constructor.
    + simplify_eq/=.
    + simplify_eq/=. apply well_polled_match. by apply IH.
  - destruct h1 as [|e h1]; [constructor|]. simplify_eq/=.
    constructor. by apply IH.
  - destruct h1 as [|e h1]; [constructor|]. simplify_eq/=.
    constructor. by apply IH.
Qed.

Lemma well_polled_run_history fs self : well_polled (run_history fs self).
Proof.
  unfold run_history.
  assert (well_polled (quiet_history 0 (run_steps fs self))) as Hall
    by apply well_polled_quiet_items.
  destruct (run_thread_cases fs self)
    as [[-> _]|(l1 & l2 & Hl & -> & _ & _)]; simpl history.
  - apply well_polled_app; [done|repeat constructor].
  - apply well_polled_app; [|repeat constructor].
    rewrite Hl, quiet_history_app in Hall.
    by eapply well_polled_before_poll.
Qed.

Lemma well_polled_lookup h i p :
  well_polled h → h !! i = Some (Emit (found p)) →
  ∃ j, i = S j ∧ h !! j = Some (IsSet false).
Proof.
  intros Hh. revert i.
  induction Hh as [|b h _ IH|p' h _ IH|n h _ IH|h _ IH]; intros i Hi.
  - done.
  - destruct i as [|i]; [done|]. destruct (IH i Hi) as (j & -> & Hj).
    by exists (S j).
  - destruct i as [|[|i]]; [done|by exists 0|].
    destruct (IH i Hi) as (j & -> & Hj). by exists (S (S j)).
  - destruct i as [|i]; [done|]. destruct (IH i Hi) as (j & -> & Hj).
    by exists (S j).
  - destruct i as [|i]; [done|]. destruct (IH i Hi) as (j & -> & Hj).
    by exists (S j).
Qed.

(** X6. In every run, the event just before the emission of a match is a
    call of [is_set()] that returned false: no match is emitted without
    the stop event having been read immediately before. *)
Theorem run_polls_before_each_match (fs : filesystem) (self : SearchWorker)
    (i : nat) (p : string) :
  run_history fs self !! i = Some (Emit (found p)) →
  ∃ j, i = S j ∧ run_history fs self !! j = Some (IsSet false).
Proof. apply well_polled_lookup, well_polled_run_history. Qed.

Lemma run_polls_before_each_match_witness :
  ∃ j, 2 = S j
    ∧ run_history testroot_fs
        (SearchWorker_init ["/tmp/testroot"] "foo" never_set) !! j
      = Some (IsSet false).
Proof.
  by apply (run_polls_before_each_match testroot_fs
              (SearchWorker_init ["/tmp/testroot"] "foo" never_set) 2
              "/tmp/testroot/Foo").
Defined.

(** ** More on the mount enumerator *)

Lemma sorted_set_same_elements l1 l2 :
  (∀ x, x ∈ l1 ↔ x ∈ l2) → sorted_set l1 = sorted_set l2.
Proof.
  intros Hsame. unfold sorted_set. do 2 f_equal.
  apply set_eq. intros x. by rewrite !elem_of_list_to_set.
Qed.

(** X7. The result depends only on which lines the table holds: neither
    their order nor their repetition changes it. *)
Theorem find_mounts_external_same_lines (ls1 ls2 : list string) :
  (∀ line, line ∈ ls1 ↔ line ∈ ls2) →
  find_mounts_external (Lines ls1) = find_mounts_external (Lines ls2).
Proof.
  intros Hsame. rewrite !mounts_of_lines. apply sorted_set_same_elements.
  intros m. rewrite !list_elem_of_bind. by setoid_rewrite Hsame.
Qed.

Lemma find_mounts_external_same_lines_witness :
  find_mounts_external (Lines ["/dev/sdb1 /b"; "/dev/sda1 /a"; "/dev/sdb1 /b"])
  = find_mounts_external (Lines ["/dev/sda1 /a"; "/dev/sdb1 /b"]).
Proof.
  apply find_mounts_external_same_lines. intros line.
  rewrite !elem_of_cons, !elem_of_nil. tauto.
Defined.

(** X8. A read that fails after some lines returns mount points that the
    complete read would also return. *)
Theorem find_mounts_external_partial_read (ls rest : list string) (e : exn)
    (mnt : string) :
  mnt ∈ find_mounts_external (LinesThenError ls e) →
  mnt ∈ find_mounts_external (Lines (ls ++ rest)).
Proof.
  rewrite mounts_of_partial_read, !mounts_of_lines, !elem_of_sorted_set.
  rewrite bind_app, elem_of_app. auto.
Qed.

Lemma find_mounts_external_partial_read_witness :
  "/a" ∈ find_mounts_external (Lines (["/dev/sda1 /a"] ++ ["/dev/sdb1 /b"])).
Proof.
  apply (find_mounts_external_partial_read _ _ OtherOSError).
  apply (bool_decide_unpack _). by vm_compute.
Defined.

(** *** The fields that [split] gives *)

Lemma no_space_app a b : no_space (a +:+ b) ↔ no_space a ∧ no_space b.
Proof.
  induction a as [|c a IH]; [rewrite append_nil_l; simpl; tauto|].
  rewrite append_cons. simpl. rewrite IH. tauto.
Qed.

Lemma no_space_rev s : no_space (String.rev s) ↔ no_space s.
Proof.
  induction s as [|c s IH]; [done|].
  rewrite rev_cons, no_space_app, IH. simpl. tauto.
Qed.

Lemma rev_nonempty s : s ≠ "" → String.rev s ≠ "".
Proof.
  destruct s as [|c s]; [done|]. intros _. rewrite rev_cons.
  by destruct (String.rev s).
Qed.

Lemma split_go_fields cur s x :
  (∀ w, cur = Some w → w ≠ "" ∧ no_space w) →
  x ∈ Str.split_go cur s → x ≠ "" ∧ no_space x.
Proof.
  revert cur. induction s as [|c s IH]; intros cur Hcur; simpl.
  - destruct cur as [w|]; simpl; [|by intros ?%elem_of_nil].
    intros ->%list_elem_of_singleton. destruct (Hcur w eq_refl) as [Hw Hs].
    split; [by apply rev_nonempty|by apply no_space_rev].
  - destruct (Str.isspace c) eqn:Hc.
    + rewrite elem_of_app. intros [Hx|Hx]; [|by apply (IH None)].
      destruct cur as [w|]; simpl in Hx; [|by apply elem_of_nil in Hx].
      apply list_elem_of_singleton in Hx as ->.
      destruct (Hcur w eq_refl) as [Hw Hs].
      split; [by apply rev_nonempty|by apply no_space_rev].
    + apply IH. intros w [= <-]. split; [done|]. simpl. split; [done|].
      destruct cur as [w|]; simpl; [by apply Hcur|done].
Qed.

Lemma split_fields line x : x ∈ Str.split line → x ≠ "" ∧ no_space x.
Proof. by apply split_go_fields. Qed.

(** X9. Every mount point returned, whatever the read does, is a field of
    a line: it is not empty and holds no white space. *)
Theorem find_mounts_external_fields (f : proc_mounts) (mnt : string) :
  mnt ∈ find_mounts_external f → mnt ≠ "" ∧ no_space mnt.
Proof.
  assert (∀ ls, mnt ∈ find_mounts_external (Lines ls) → mnt ≠ "" ∧ no_space mnt)
    as Hlines.
  { intros ls (line & dev & _ & [rest Hsplit] & _)%elem_of_find_mounts_external.
    apply (split_fields line). rewrite Hsplit. set_solver. }
  destruct f as [e|ls|ls e]; [|apply Hlines..].
  unfold find_mounts_external, read_mounts, sorted_set.
  rewrite list_to_set_nil, elements_empty. by intros ?%elem_of_nil.
Qed.

Lemma find_mounts_external_fields_witness :
  "/media/usb1" ≠ "" ∧ no_space "/media/usb1".
Proof.
  apply (find_mounts_external_fields (Lines synthetic_table)).
  apply (bool_decide_unpack _). by vm_compute.
Defined.

(** ** The roots that [start_search] builds *)

Lemma filter_ext_elem {X} (P Q : X → Prop) `{!∀ x, Decision (P x)}
    `{!∀ x, Decision (Q x)} (l : list X) :
  (∀ x, x ∈ l → (P x ↔ Q x)) → filter P l = filter Q l.
Proof.
  induction l as [|x l IH]; intros Hext; [done|].
  rewrite !filter_cons, IH by (intros y Hy; apply Hext; by right).
  destruct (decide (P x)) as [HP|HP], (decide (Q x)) as [HQ|HQ]; try done;
    exfalso; apply (Hext x) in HP || apply (Hext x) in HQ; try done; left.
Qed.

Lemma foldl_add_missing (roots ms : list string) :
  NoDup ms →
  foldl (λ roots m, if bool_decide (m ∈ roots) then roots else roots ++ [m])
    roots ms
  = roots ++ filter (λ m, m ∉ roots) ms.
Proof.
  intros Hms. revert roots.
  induction Hms as [|m ms Hm _ IH]; intros roots; simpl.
  - by rewrite app_nil_r.
  - rewrite IH, filter_cons. case_bool_decide as Hin.
    + by rewrite decide_False by auto.
    + rewrite decide_True by done. rewrite <-app_assoc. simpl. do 2 f_equal.
      apply filter_ext_elem. intros x Hx.
      rewrite elem_of_app, list_elem_of_singleton.
      split; [tauto|]. intros Hnot [?| ->]; done.
Qed.

Lemma NoDup_find_mounts_external f : NoDup (find_mounts_external f).
Proof.
  unfold find_mounts_external. destruct (read_mounts f). apply NoDup_sorted_set.
Qed.

Lemma search_roots_filter (w : MainWindow) (mtab : proc_mounts) :
  search_roots w mtab
  = base_roots w
    ++ (if include_external_cb w
        then filter (λ m, m ∉ base_roots w) (find_mounts_external mtab)
        else []).
Proof.
  unfold search_roots. fold (base_roots w).
  destruct (include_external_cb w); [|by rewrite app_nil_r].
  apply foldl_add_missing, NoDup_find_mounts_external.
Qed.

(** X10. The roots given to a worker are the custom roots, or [/] when
    there is none, followed, when the box is checked, by the mount points
    that are not among them, in ascending order; so every root is a custom
    root, [/] or a mount point, and with the box checked every mount point
    is a root. *)
Theorem search_roots_spec (w : MainWindow) (mtab : proc_mounts) :
  search_roots w mtab
  = base_roots w
    ++ (if include_external_cb w
        then filter (λ m, m ∉ base_roots w) (find_mounts_external mtab)
        else [])
  ∧ (∀ r, r ∈ search_roots w mtab →
       r ∈ base_roots w ∨ r ∈ find_mounts_external mtab)
  ∧ (∀ m, include_external_cb w = true → m ∈ find_mounts_external mtab →
       m ∈ search_roots w mtab).
Proof.
  rewrite search_roots_filter. split_and!; [done|..].
  - intros r [?|Hr]%elem_of_app; [by left|].
    destruct (include_external_cb w); [|by apply elem_of_nil in Hr].
    apply list_elem_of_filter in Hr as [_ ?]. by right.
  - intros m -> Hm. rewrite elem_of_app, list_elem_of_filter.
    destruct (decide (m ∈ base_roots w)); auto.
Qed.

Lemma search_roots_spec_witness :
  "/mnt/data"
  ∈ search_roots (set_external true MainWindow_init) (Lines synthetic_table).
Proof.
  apply (search_roots_spec (set_external true MainWindow_init)
           (Lines synthetic_table)); [done|].
  apply (bool_decide_unpack _). by vm_compute.
Defined.

(** X11. When no custom root is repeated, no root is given twice to the
    worker: a mount point that is already a root is not added. *)
Theorem search_roots_NoDup (w : MainWindow) (mtab : proc_mounts) :
  NoDup (custom_roots w) → NoDup (search_roots w mtab).
Proof.
  intros Hcustom. rewrite search_roots_filter.
  assert (NoDup (base_roots w)) as Hbase.
  { unfold base_roots. destruct (custom_roots w); [|done].
    apply NoDup_singleton. }
  destruct (include_external_cb w); [|by rewrite app_nil_r].
  apply NoDup_app. split_and!; [done| |].
  - intros x Hx [Hnot _]%list_elem_of_filter. done.
  - apply NoDup_filter, NoDup_find_mounts_external.
Qed.

Lemma search_roots_NoDup_witness :
  NoDup (search_roots
           (set_external true (add_custom_folder "/media/usb1" MainWindow_init))
           (Lines synthetic_table)).
Proof.
  apply search_roots_NoDup. apply (bool_decide_unpack _). by vm_compute.
Defined.

(** ** More on the main window *)

(** *** The keyword given to a worker *)

Lemma starts_clean_lstrip s : starts_clean (Str.lstrip s).
Proof.
  induction s as [|c s IH]; [done|]. simpl.
  by destruct (Str.isspace c) eqn:Hc.
Qed.

Lemma lstrip_clean s : starts_clean s → Str.lstrip s = s.
Proof. destruct s as [|c s]; [done|]. simpl. by intros ->. Qed.

Lemma lstrip_split s : ∃ w, s = w +:+ Str.lstrip s.
Proof.
  induction s as [|c s [w IH]]; [by exists ""|]. simpl.
  destruct (Str.isspace c); [|by exists ""].
  exists (String c w). by rewrite append_cons, <-IH.
Qed.

Lemma starts_clean_app_l a b : a ≠ "" → starts_clean (a +:+ b) → starts_clean a.
Proof. by destruct a. Qed.

Lemma strip_rev_clean s :
  ∃ u, Str.strip s = String.rev u ∧ starts_clean u ∧ starts_clean (String.rev u).
Proof.
  unfold Str.strip. set (t := Str.lstrip s).
  exists (Str.lstrip (String.rev t)). split_and!; [done|apply starts_clean_lstrip|].
  destruct (lstrip_split (String.rev t)) as [w Hw].
  set (u := Str.lstrip (String.rev t)) in *.
  destruct (decide (String.rev u = "")) as [->|Hu]; [done|].
  apply (starts_clean_app_l _ (String.rev w)); [done|].
  rewrite <-rev_append, <-Hw, rev_involutive. apply starts_clean_lstrip.
Qed.

Lemma strip_trimmed s : Str.strip s ≠ "" → trimmed (Str.strip s).
Proof.
  intros Hne. destruct (strip_rev_clean s) as (u & Hs & Hu & Hru).
  rewrite Hs in *. split_and!; [done..|]. by rewrite rev_involutive.
Qed.

Lemma handle_all_snoc mtab es e :
  handle_all mtab (es ++ [e]) = handle mtab (handle_all mtab es) e.
Proof. unfold handle_all. by rewrite foldl_app. Qed.

(** An invariant of the handlers holds after every sequence of events,
    here of events that all satisfy [Q]. *)
Lemma handle_all_invariant (P : MainWindow → Prop) (Q : ui_event → Prop) mtab :
  P MainWindow_init →
  (∀ w e, Q e → P w → P (handle mtab w e)) →
  ∀ es, Forall Q es → P (handle_all mtab es).
Proof.
  intros Hinit Hstep es. induction es as [|e es IH] using rev_ind; [by intros _|].
  intros [Hes He]%Forall_app.
  rewrite handle_all_snoc. apply Hstep; [|by apply IH].
  apply (proj1 (Forall_forall Q [e]) He). left.
Qed.

Lemma start_search_threads mtab w :
  threads (start_search mtab w) = threads w
  ∨ (Str.strip (search_input w) ≠ ""
     ∧ threads (start_search mtab w)
       = threads w ++ [Thread (search_roots w mtab)
                         (Str.strip (search_input w)) true]).
Proof. unfold start_search. case_bool_decide; [by left|by right]. Qed.

Lemma handle_threads_keywords mtab w e :
  Forall (λ t, trimmed (thread_keyword t)) (threads w) →
  Forall (λ t, trimmed (thread_keyword t)) (threads (handle mtab w e)).
Proof.
  intros Hw.
  assert (Forall (λ t, trimmed (thread_keyword t)) (threads (start_search mtab w)))
    as Hstart.
  { destruct (start_search_threads mtab w) as [->|[Hne ->]]; [done|].
    apply Forall_app. split; [done|]. apply Forall_singleton.
    by apply strip_trimmed. }
  destruct e; simpl; try done.
  - by destruct (search_button_enabled w).
  - destruct (stop_button_enabled w); [|done]. unfold stop_search.
    destruct (last (threads w)) as [t|]; [|done]. by destruct (is_running t).
  - unfold add_custom_folder. by case_bool_decide.
  - by destruct (thread_running w i).
  - by destruct (thread_running w i).
  - destruct (thread_running w i); [|done]. simpl.
    apply Forall_alter; [done|]. by intros t _ Ht.
Qed.

(** X12. Whatever the user does, the keyword of every worker that the
    window has created is the text of the field without the white space
    around it, and it is not empty: it neither begins nor ends with white
    space. *)
Theorem worker_keywords_trimmed (mtab : proc_mounts) (es : list ui_event)
    (t : thread) :
  t ∈ threads (handle_all mtab es) → trimmed (thread_keyword t).
Proof.
  revert t. apply Forall_forall.
  apply (handle_all_invariant
           (λ w, Forall (λ t, trimmed (thread_keyword t)) (threads w))
           (λ _, True)).
  - constructor.
  - intros w e _. apply handle_threads_keywords.
  - by apply Forall_true.
Qed.

Lemma worker_keywords_trimmed_witness :
  trimmed "foo".
Proof.
  apply (worker_keywords_trimmed (Lines [])
           [text_edited "  foo "; return_pressed]
           (Thread ["/"] "foo" true)).
  vm_compute. left.
Defined.

(** *** The buttons and the loader *)

Lemma handle_indicators mtab w e :
  indicators_agree w → indicators_agree (handle mtab w e).
Proof.
  intros Hw.
  assert (indicators_agree (start_search mtab w)) as Hstart.
  { unfold start_search. by case_bool_decide. }
  destruct e; simpl; try done.
  - by destruct (search_button_enabled w).
  - destruct (stop_button_enabled w) eqn:Hstop; [|done]. unfold stop_search.
    destruct (last (threads w)) as [t|]; [|done].
    destruct (is_running t); [exact Hw|done].
  - unfold add_custom_folder. by case_bool_decide.
  - by destruct (thread_running w i).
  - by destruct (thread_running w i).
  - by destruct (thread_running w i).
Qed.

(** X13. Whatever the user and the workers do, the search button is
    enabled exactly when the stop button is disabled, and the loader is
    visible exactly when the stop button is enabled. *)
Theorem indicators_always_agree (mtab : proc_mounts) (es : list ui_event) :
  indicators_agree (handle_all mtab es).
Proof.
  apply (handle_all_invariant indicators_agree (λ _, True)).
  - done.
  - intros w e _. apply handle_indicators.
  - by apply Forall_true.
Qed.

(** *** The list of results *)

(** X16. An event either keeps the results that the list shows, adding at
    most one at the end, or is a submission of a keyword that is not
    blank, which empties the list: no result is removed otherwise. *)
Theorem handle_keeps_results (mtab : proc_mounts) (w : MainWindow)
    (e : ui_event) :
  (∃ new, result_list (handle mtab w e) = result_list w ++ new
          ∧ length new ≤ 1)
  ∨ ((e = search_clicked ∨ e = return_pressed)
     ∧ Str.strip (search_input w) ≠ ""
     ∧ result_list (handle mtab w e) = []).
Proof.
  assert (∀ w', result_list w' = result_list w →
            ∃ new, result_list w' = result_list w ++ new ∧ length new ≤ 1)
    as Hkeep.
  { intros w' ->. exists []. rewrite app_nil_r. split; [done|]. simpl. lia. }
  assert (result_list (start_search mtab w) = result_list w
          ∨ (Str.strip (search_input w) ≠ ""
             ∧ result_list (start_search mtab w) = [])) as Hstart.
  { unfold start_search. case_bool_decide; [by left|by right]. }
  destruct e; simpl; try (left; by apply Hkeep).
  - destruct (search_button_enabled w); [|left; by apply Hkeep].
    destruct Hstart as [?|[? ?]]; [left; by apply Hkeep|right; auto].
  - destruct Hstart as [?|[? ?]]; [left; by apply Hkeep|right; auto].
  - left. apply Hkeep. destruct (stop_button_enabled w); [|done].
    unfold stop_search. destruct (last (threads w)) as [t|]; [|done].
    by destruct (is_running t).
  - left. apply Hkeep. unfold add_custom_folder. by case_bool_decide.
  - left. destruct (thread_running w i); [|by apply Hkeep].
    by exists [path].
  - left. apply Hkeep. by destruct (thread_running w i).
  - left. apply Hkeep. by destruct (thread_running w i).
Qed.

(** *** A search from its start to its end *)

Lemma found_paths_signals h : found_paths h = signal_paths (signals h).
Proof.
  induction h as [|[[p|n|]|b] h IH]; simpl; by rewrite ?IH.
Qed.

Lemma signal_paths_app sgs1 sgs2 :
  signal_paths (sgs1 ++ sgs2) = signal_paths sgs1 ++ signal_paths sgs2.
Proof. apply omap_app. Qed.

(** The signals of a running thread, before [finished], add its matches
    to the list and leave the buttons, the loader and the threads as they
    are. *)
Lemma deliver_before_finished mtab i sgs w w' :
  finished ∉ sgs → thread_running w i = true →
  w' = foldl (handle mtab) w (deliver i <$> sgs) →
  result_list w' = result_list w ++ signal_paths sgs
  ∧ threads w' = threads w
  ∧ search_button_enabled w' = search_button_enabled w
  ∧ stop_button_enabled w' = stop_button_enabled w
  ∧ loader_visible w' = loader_visible w.
Proof.
  intros Hfin Hrun ->. revert w Hfin Hrun.
  induction sgs as [|sg sgs IH]; intros w Hfin Hrun.
  - simpl. by rewrite app_nil_r.
  - apply not_elem_of_cons in Hfin as [Hsg Hfin].
    rewrite fmap_cons. cbn [foldl].
    destruct sg as [p|n|]; [| |done]; cbn [deliver handle]; rewrite Hrun.
    + destruct (IH (on_found p w) Hfin Hrun) as (-> & -> & -> & -> & ->).
      simpl. by rewrite <-app_assoc.
    + destruct (IH (on_progress n w) Hfin Hrun) as (-> & -> & -> & -> & ->).
      done.
Qed.

(** X17. A search from its start to its end: a keyword that is not blank
    is submitted, no exception leaves the run of the worker, cancelled or
    not, and its signals reach the window in the order of their emission.
    The list then shows exactly the paths that the run emitted, in that
    order, the status gives their number, the search button is enabled
    again, the stop button is disabled and the loader is hidden. *)
Theorem search_session (py : recursion_budget) (mtab : proc_mounts)
    (w : MainWindow) (fs : filesystem) (stop : stop_event) :
  let kw := Str.strip (search_input w) in
  let r := run_py py fs (SearchWorker_init (search_roots w mtab) kw stop) in
  let h := history r.1 in
  let w' := foldl (handle mtab) (start_search mtab w)
              (deliver (length (threads w)) <$> signals h) in
  kw ≠ "" → r.2 = false →
  result_list w' = found_paths h
  ∧ status_label w' = status_finished (length (found_paths h))
  ∧ search_button_enabled w' = true
  ∧ stop_button_enabled w' = false
  ∧ loader_visible w' = false.
Proof.
  intros kw r h w' Hkw Hraised. subst w' h r.
  set (self := SearchWorker_init (search_roots w mtab) kw stop) in *.
  destruct (signals_run_py py fs self) as (pre & Hh & Hpre).
  unfold run_py_history in Hh. rewrite Hraised in Hh.
  rewrite found_paths_signals, Hh, fmap_app, foldl_app, signal_paths_app.
  set (w1 := start_search mtab w).
  set (t := Thread (search_roots w mtab) kw true).
  assert (threads w1 = threads w ++ [t] ∧ result_list w1 = [])
    as [Hthreads Hres].
  { subst w1. unfold start_search. fold kw. by rewrite bool_decide_false. }
  assert (thread_running w1 (length (threads w)) = true) as Hrun.
  { unfold thread_running. by rewrite Hthreads, list_lookup_middle. }
  set (w2 := foldl (handle mtab) w1 (deliver (length (threads w)) <$> pre)).
  destruct (deliver_before_finished mtab (length (threads w)) pre w1
              w2 Hpre Hrun eq_refl) as (Hr & Ht & _).
  assert (thread_running w2 (length (threads w)) = true) as Hrun2
    by (unfold thread_running; by rewrite Ht, Hthreads, list_lookup_middle).
  simpl. rewrite Hrun2. simpl. rewrite app_nil_r, Hr, Hres. by split_and!.
Qed.

Lemma search_session_witness :
  result_list
    (foldl (handle (Lines []))
       (start_search (Lines [])
          (set_text "foo" (add_custom_folder "/tmp/testroot" MainWindow_init)))
       (deliver 0 <$> signals (history (run_py (Some 1) testroot_fs
          (SearchWorker_init ["/tmp/testroot"] "foo" never_set)).1)))
  = found_paths (history (run_py (Some 1) testroot_fs
      (SearchWorker_init ["/tmp/testroot"] "foo" never_set)).1).
Proof.
  apply (search_session (Some 1) (Lines [])
           (set_text "foo" (add_custom_folder "/tmp/testroot" MainWindow_init))
           testroot_fs never_set).
  - done.
  - reflexivity.
Defined.

(** ** More on the terminal launcher *)

Lemma head_filter_split {X} (P : X → Prop) `{!∀ x, Decision (P x)}
    (l : list X) (x : X) :
  head (filter P l) = Some x ↔
  ∃ before after, l = before ++ x :: after ∧ P x ∧ Forall (λ y, ¬ P y) before.
Proof.
  induction l as [|y l IH].
  - split; [done|]. intros (before & after & Heq & _). by destruct before.
  - rewrite filter_cons. destruct (decide (P y)) as [Hy|Hy]; simpl.
    + split.
      * intros [= ->]. by exists [], l.
      * intros ([|z before] & after & Heq & Hx & Hbefore); simplify_eq/=; [done|].
        by apply Forall_cons in Hbefore as [? _].
    + rewrite IH. split.
      * intros (before & after & -> & Hx & Hbefore).
        exists (y :: before), after. split_and!; [done..|by constructor].
      * intros ([|z before] & after & Heq & Hx & Hbefore); simplify_eq/=; [done|].
        apply Forall_cons in Hbefore as [_ ?]. by exists before, after.
Qed.

Lemma open_terminal_at_chosen which folder :
  open_terminal_at which folder
  = match chosen which with
    | None => NoTerminalWarning
    | Some cmd =>
        if bool_decide (cmd = "konsole") then Popen [cmd; "--workdir"; folder]
        else if bool_decide (cmd = "x-terminal-emulator")
                || bool_decide (cmd = "gnome-terminal")
        then Popen [cmd; "--"; "bash"; "-c";
                    "cd " +:+ dquote +:+ folder +:+ dquote +:+ "; exec bash"]
        else Popen [cmd; "-e";
                    "bash -lc " +:+ dquote +:+ "cd " +:+ dquote +:+ folder
                      +:+ dquote +:+ "; exec bash" +:+ dquote]
    end.
Proof.
  unfold open_terminal_at, chosen. by destruct (filter _ candidates).
Qed.

(** X18. The launcher gives the warning exactly when [shutil_which] finds
    none of the six candidates; otherwise it spawns a process. *)
Theorem open_terminal_at_no_terminal (which : string → bool)
    (folder : string) :
  open_terminal_at which folder = NoTerminalWarning
  ↔ ∀ c, c ∈ candidates → which c = false.
Proof.
  rewrite open_terminal_at_chosen. unfold chosen. split.
  - destruct (filter _ candidates) as [|cmd l] eqn:Hf.
    + intros _ c Hc. destruct (which c) eqn:Hw; [|done].
      assert (c ∈ filter (λ c, which c = true) candidates) as Hin
        by (by apply list_elem_of_filter).
      rewrite Hf in Hin. by apply elem_of_nil in Hin.
    + simpl. destruct (bool_decide (cmd = "konsole")); [done|].
      by destruct (_ || _).
  - intros Hnone.
    destruct (filter _ candidates) as [|cmd l] eqn:Hf; [done|].
    assert (cmd ∈ filter (λ c, which c = true) candidates) as Hin
      by (rewrite Hf; left).
    apply list_elem_of_filter in Hin as [Hw Hc]. by rewrite Hnone in Hw.
Qed.

(** X19. The program that the launcher spawns is the first of the
    candidates, in their order of priority, that [shutil_which] finds. *)
Theorem open_terminal_at_priority (which : string → bool) (folder : string)
    (argv : list string) :
  open_terminal_at which folder = Popen argv →
  ∃ cmd args before after,
    argv = cmd :: args
    ∧ candidates = before ++ cmd :: after
    ∧ which cmd = true
    ∧ Forall (λ c, which c = false) before.
Proof.
  rewrite open_terminal_at_chosen.
  destruct (chosen which) as [cmd|] eqn:Hc; [|done].
  apply head_filter_split in Hc as (before & after & Hcand & Hw & Hbefore).
  intros Hargv.
  assert (∃ args, argv = cmd :: args) as [args ->].
  { destruct (bool_decide (cmd = "konsole")); [simplify_eq; eauto|].
    destruct (_ || _); simplify_eq; eauto. }
  exists cmd, args, before, after. split_and!; [done..|].
  eapply Forall_impl; [done|]. intros c Hn. by apply not_true_is_false.
Qed.

Lemma open_terminal_at_priority_witness :
  ∃ cmd args before after,
    ["xterm"; "-e"; "bash -lc " +:+ dquote +:+ "cd " +:+ dquote +:+ "/tmp"
                      +:+ dquote +:+ "; exec bash" +:+ dquote]
    = cmd :: args
    ∧ candidates = before ++ cmd :: after
    ∧ only "xterm" cmd = true
    ∧ Forall (λ c, only "xterm" c = false) before.
Proof. by apply (open_terminal_at_priority (only "xterm") "/tmp"). Defined.

(** X20. When [konsole] is installed it is the program spawned, whatever
    else is, and the folder is an argument of its own, as it is given:
    no character of the folder is read by a shell. *)
Theorem open_terminal_at_konsole_argv (which : string → bool)
    (folder : string) :
  which "konsole" = true →
  open_terminal_at which folder = Popen ["konsole"; "--workdir"; folder]
  ∧ launched_workdir (open_terminal_at which folder) = Some folder.
Proof.
  intros Hk. unfold open_terminal_at, candidates.
  rewrite filter_cons. by rewrite decide_True.
Qed.

Lemma open_terminal_at_konsole_argv_witness :
  launched_workdir
    (open_terminal_at (only "konsole") ("/tmp/a b" +:+ dquote +:+ "$c"))
  = Some ("/tmp/a b" +:+ dquote +:+ "$c").
Proof.
  by apply (open_terminal_at_konsole_argv (only "konsole")).
Defined.

(** *** The script given to [bash -c] *)

Lemma quoted_run folder cur rest :
  quotable folder →
  Sh.words_go Sh.Quoted (Some cur) (folder +:+ dquote +:+ rest)
  = Sh.words_go Sh.Unquoted (Some (String.rev folder +:+ cur)) rest.
Proof.
  revert cur. induction folder as [|c folder IH]; intros cur Hq.
  - done.
  - destruct Hq as (Hc & _ & _ & _ & Hq). rewrite append_cons.
    cbn [Sh.words_go]. rewrite bool_decide_false by done.
    unfold Sh.push. simpl default. rewrite IH by done.
    by rewrite rev_cons, append_assoc.
Qed.

Lemma cd_target_quoted folder :
  quotable folder →
  Sh.cd_target ("cd " +:+ dquote +:+ folder +:+ dquote +:+ "; exec bash")
  = Some folder.
Proof.
  intros Hq. unfold Sh.cd_target, Sh.first_command.
  change ("cd " +:+ dquote +:+ folder +:+ dquote +:+ "; exec bash")
    with (String "c" (String "d" (String " " (String "034"
            (folder +:+ dquote +:+ "; exec bash"))))).
  cbn [Sh.words_go]. simpl bool_decide. simpl Sh.is_blank. cbv iota.
  simpl bool_decide. cbv iota. simpl default.
  rewrite quoted_run by done. rewrite append_nil_r.
  cbn [Sh.words_go]. simpl bool_decide. cbv iota.
  unfold Sh.close_word. simpl. by rewrite rev_involutive.
Qed.

(** X21. When the terminal chosen is [x-terminal-emulator] or
    [gnome-terminal], and the folder holds no double quote, dollar,
    backquote or backslash, the script given to [bash -c] changes to the
    folder as it is given, spaces included. *)
Theorem open_terminal_at_bash_c_quotable (which : string → bool)
    (folder cmd : string) :
  chosen which = Some cmd →
  cmd = "x-terminal-emulator" ∨ cmd = "gnome-terminal" →
  quotable folder →
  launched_workdir (open_terminal_at which folder) = Some folder.
Proof.
  intros Hc Hcmd Hq. rewrite open_terminal_at_chosen, Hc.
  destruct Hcmd as [-> | ->]; simpl; by apply cd_target_quoted.
Qed.

Lemma open_terminal_at_bash_c_quotable_witness :
  launched_workdir
    (open_terminal_at (only "gnome-terminal") "/tmp/my folder; ls")
  = Some "/tmp/my folder; ls".
Proof.
  apply (open_terminal_at_bash_c_quotable (only "gnome-terminal")
           "/tmp/my folder; ls" "gnome-terminal"); [done|by right|].
  simpl. repeat split; done.
Defined.

(** ** The actions on a result *)

Lemma no_slash_contains n : no_slash n → Str.contains "/" n = false.
Proof.
  induction n as [|c n IH]; [done|]. intros [Hc Hn].
  cbn [Str.contains Str.startswith]. rewrite IH by done.
  by destruct (decide _) as [<-|].
Qed.

Lemma contains_slash_app a b : Str.contains "/" (a +:+ String "/" b) = true.
Proof. apply contains_spec. by exists a, b. Qed.

Lemma head_of_no_slash n : no_slash n → PosixPath.head_of n = "".
Proof.
  destruct n as [|c n]; [done|]. intros [Hc Hn]. simpl.
  rewrite no_slash_contains by done. by rewrite decide_False.
Qed.

Lemma head_of_slash a n :
  no_slash n → PosixPath.head_of (a +:+ String "/" n) = a +:+ "/".
Proof.
  intros Hn. induction a as [|c a IH].
  - rewrite append_nil_l. cbn [PosixPath.head_of].
    rewrite no_slash_contains by done. by rewrite decide_True.
  - rewrite !append_cons. cbn [PosixPath.head_of].
    by rewrite contains_slash_app, IH.
Qed.

Lemma all_sep_snoc a : PosixPath.all_sep (a +:+ "/") = PosixPath.all_sep a.
Proof.
  induction a as [|c a IH]; [done|]. rewrite append_cons. simpl.
  by rewrite IH.
Qed.

Lemma all_sep_endswith a :
  a ≠ "" → Str.endswith a "/" = false → PosixPath.all_sep a = false.
Proof.
  induction a as [|c a IH]; [done|]. intros _ Hend. simpl.
  destruct a as [|c' a'].
  - unfold Str.endswith in Hend. simpl in Hend.
    destruct (decide ("/"%char = c)) as [<-|Hc]; [done|].
    rewrite bool_decide_false by done. done.
  - rewrite IH; [apply andb_false_r|done|].
    unfold Str.endswith in *. rewrite rev_cons in Hend.
    destruct (String.rev (String c' a')) as [|x r] eqn:Hrev.
    + by apply (rev_nonempty (String c' a')) in Hrev.
    + by rewrite append_cons in Hend.
Qed.

Lemma lstrip_sep_clean s :
  Str.startswith s "/" = false → PosixPath.lstrip_sep s = s.
Proof.
  destruct s as [|c s]; [done|]. cbn [Str.startswith PosixPath.lstrip_sep].
  by destruct (decide ("/"%char = c)) as [<-|Hc];
    [|rewrite decide_False by done].
Qed.

Lemma rstrip_sep_snoc a :
  Str.endswith a "/" = false → PosixPath.rstrip_sep (a +:+ "/") = a.
Proof.
  intros Hend. unfold PosixPath.rstrip_sep.
  rewrite rev_append. change (String.rev "/") with "/".
  change ("/" +:+ String.rev a) with (String "/" (String.rev a)).
  cbn [PosixPath.lstrip_sep]. rewrite decide_True by done.
  rewrite lstrip_sep_clean by done. apply rev_involutive.
Qed.

Lemma all_sep_endswith_sep a :
  a ≠ "" → PosixPath.all_sep a = true → ∃ a', a = a' +:+ "/".
Proof.
  induction a as [|c a IH]; [done|]. intros _. simpl.
  intros [Hc%bool_decide_eq_true Ha]%andb_true_iff. subst c.
  destruct a as [|c' a']; [by exists ""|].
  destruct (IH ltac:(done) Ha) as [a'' ->]. by exists (String "/" a'').
Qed.

(** The directory of the path that [os.walk] builds for a file is the
    directory in which the walk found it. *)
Lemma dirname_join d f :
  no_slash f →
  Str.endswith d "/" = false ∨ PosixPath.all_sep d = true →
  PosixPath.dirname (PosixPath.join d f) = d.
Proof.
  intros Hf Hd. unfold PosixPath.join, PosixPath.dirname.
  rewrite no_slash_startswith by done.
  destruct (decide (d = "")) as [->|Hne].
  { simpl. rewrite append_nil_l, head_of_no_slash by done. done. }
  rewrite (bool_decide_false (d = "")) by done. cbn [orb].
  destruct (Str.endswith d "/") eqn:Hend.
  - destruct Hd as [?|Hall]; [done|].
    destruct (endswith_slash d Hend) as [a ->].
    rewrite append_assoc. change ("/" +:+ f) with (String "/" f).
    rewrite head_of_slash by done. rewrite Hall.
    by rewrite andb_false_r.
  - change ("/" +:+ f) with (String "/" f). rewrite head_of_slash by done.
    rewrite all_sep_snoc, all_sep_endswith by done.
    rewrite bool_decide_false by (by destruct d).
    simpl. by apply rstrip_sep_snoc.
Qed.

(** X22. For a file that the walk found in the directory [d], the entries
    "open a terminal in the parent folder" and "open a terminal here" of
    the menu, and so for a path that is no directory, launch the terminal
    at [d]. *)
Theorem show_context_menu_found_file (which isdir : string → bool)
    (d f : string) :
  no_slash f →
  d ≠ "" →
  Str.endswith d "/" = false ∨ PosixPath.all_sep d = true →
  isdir (PosixPath.join d f) = false →
  show_context_menu which isdir (Some (PosixPath.join d f))
    (Some open_parent_act)
  = Terminal (open_terminal_at which d)
  ∧ show_context_menu which isdir (Some (PosixPath.join d f))
      (Some open_here_act)
    = Terminal (open_terminal_at which d).
Proof.
  intros Hf Hne Hd Hfile. unfold show_context_menu.
  rewrite Hfile, dirname_join by done. by rewrite bool_decide_false.
Qed.

Lemma show_context_menu_found_file_witness :
  show_context_menu (only "konsole") (λ _, false)
    (Some (PosixPath.join "/tmp/testroot/baz" "FooBar.log"))
    (Some open_parent_act)
  = Terminal (open_terminal_at (only "konsole") "/tmp/testroot/baz").
Proof.
  apply (show_context_menu_found_file (only "konsole") (λ _, false)
           "/tmp/testroot/baz" "FooBar.log").
  - simpl. repeat split; discriminate.
  - discriminate.
  - left. reflexivity.
  - reflexivity.
Defined.
